(** * Music accompaniment generator: a shallow embedding of MosabMohamed.py

    The development follows the Python module function by function.

    - Python integers are [Z]; [%] with a positive modulus is [Z.modulo].
    - The float arithmetic of the quantizer and of the fitness is modelled
      by exact rationals [Q]; equality of float results is stated with
      [Qeq] ([==]).
    - [int(midi_number / 12)] of the pitch codec, where an octave is read
      off a float, is modelled by the IEEE 754 binary64 division of the
      standard library ([SpecFloat.SFdiv]) followed by truncation.
    - A call either returns a value or raises: [outcome].
    - [random] and [numpy.random] are an explicit random source threaded
      through the operations that draw from it.
    - Lists that are updated in place ([mutation]) live in a store of
      objects addressed by references. *)

From Stdlib Require Import ZArith QArith Qabs Qminmax Lia Lqa Permutation SpecFloat.
From stdpp Require Import base list sets strings.
From Equations Require Import Equations.

Local Open Scope Z_scope.

(** ** Outcomes of a call *)

(** The exceptions of the model.  [TypeError] stands for an operation on
    an object of the wrong kind; [InvalidNoteName] is the error the
    specification names for the pitch codec. *)
Inductive exn : Set :=
| ZeroDivisionError
| IndexError
| TypeError
| OverflowError
| ValueError
| InvalidNoteName.

Inductive outcome (A : Type) : Type :=
| Return (a : A)
| Raise (e : exn).

Arguments Return {A} a.
Arguments Raise {A} e.

#[global] Instance outcome_ret : MRet outcome := fun A a => Return a.

#[global] Instance outcome_bind : MBind outcome := fun A B k c =>
  match c with
  | Return a => k a
  | Raise e => Raise e
  end.

(** [for x in xs: acc = body(acc, x)], stopping at the first exception. *)
Fixpoint for_each {A B : Type} (xs : list B) (acc : A)
    (body : A -> B -> outcome A) : outcome A :=
  match xs with
  | [] => Return acc
  | x :: rest => acc' ← body acc x; for_each rest acc' body
  end.

(** [range(n)] *)
Definition range (n : nat) : list nat := seq 0 n.

(** [l[i]] for a Python integer index: negative indices count from the
    end, anything outside raises [IndexError]. *)
Definition py_index {A : Type} (l : list A) (i : Z) : outcome A :=
  let len := Z.of_nat (length l) in
  let j := if i <? 0 then len + i else i in
  if j <? 0 then Raise IndexError
  else match l !! Z.to_nat j with
       | Some a => Return a
       | None => Raise IndexError
       end.

(** ** Pitch codec *)

Definition notes : list string :=
  ["C"; "C#"; "D"; "D#"; "E"; "F"; "F#"; "G"; "G#"; "A"; "A#"; "B"]%string.

(** The search loop of [note_to_midi_number]:
    [for i in range(len(notes)): if note == notes[i]: note_number = i; break] *)
Fixpoint note_number_loop (note : string) (ns : list string) (i : Z)
    (note_number : Z) : Z :=
  match ns with
  | [] => note_number
  | n :: rest =>
      if String.eqb note n then i
      else note_number_loop note rest (i + 1) note_number
  end.

Definition note_to_midi_number (note : string) (octave : Z) : outcome Z :=
  let note_number := note_number_loop note notes 0 0 in
  Return (octave * 12 + note_number).

(** An integer operand of [/], taken exactly. *)
Definition int_operand (x : Z) : spec_float :=
  match x with
  | Z0 => S754_zero false
  | Zpos p => S754_finite false p 0
  | Zneg p => S754_finite true p 0
  end.

(** [a / b] on two integers: the quotient rounded to the nearest binary64
    float, ties to even. *)
Definition int_truediv (a b : Z) : outcome spec_float :=
  if b =? 0 then Raise ZeroDivisionError
  else match SFdiv 53 1024 (int_operand a) (int_operand b) with
       | S754_infinity _ => Raise OverflowError
       | q => Return q
       end.

(** [int(x)] on a float: truncation toward zero. *)
Definition float_to_int (x : spec_float) : outcome Z :=
  match x with
  | S754_zero _ => Return 0
  | S754_finite s m e =>
      let v := if 0 <=? e then Z.pos m * 2 ^ e else Z.pos m / 2 ^ (- e) in
      Return (if s then - v else v)
  | S754_infinity _ => Raise OverflowError
  | S754_nan => Raise ValueError
  end.

Definition midi_number_to_note (midi_number : Z) : outcome (string * Z) :=
  quotient ← int_truediv midi_number 12;
  octave ← float_to_int quotient;
  let note_number := midi_number - octave * 12 in
  note ← py_index notes note_number;
  Return (note, octave).

(** ** Chord catalog *)

(** A chord is the three-element list [[tonic, mediant, dominant]]. *)
Definition chord : Type := Z * Z * Z.

Definition major_triad (root_midi : Z) : chord :=
  (root_midi, root_midi + 4, root_midi + 7).
Definition minor_triad (root_midi : Z) : chord :=
  (root_midi, root_midi + 3, root_midi + 7).
Definition first_inverted_major (root_midi : Z) : chord :=
  (root_midi + 12, root_midi + 4, root_midi + 7).
Definition first_inverted_minor (root_midi : Z) : chord :=
  (root_midi + 12, root_midi + 3, root_midi + 7).
Definition second_inverted_major (root_midi : Z) : chord :=
  (root_midi + 12, root_midi + 16, root_midi + 7).
Definition second_inverted_minor (root_midi : Z) : chord :=
  (root_midi + 12, root_midi + 15, root_midi + 7).
Definition diminished (root_midi : Z) : chord :=
  (root_midi, root_midi + 3, root_midi + 6).
Definition sus2 (root_midi : Z) : chord :=
  (root_midi, root_midi + 2, root_midi + 7).
Definition sus4 (root_midi : Z) : chord :=
  (root_midi, root_midi + 5, root_midi + 7).
Definition rest : chord := (-1, -1, -1).

(** An individual is a list of chords, one per quarter. *)
Abbreviation individual := (list chord).

(** ** Melody quantizer *)

Definition quarter_time : Z := 384.

(** [a / b] on two integers: true division, a float. *)
Definition truediv (a b : Z) : outcome Q :=
  if b =? 0 then Raise ZeroDivisionError
  else Return (inject_Z a / inject_Z b)%Q.

(** [l[i]] for an index produced by [range]. *)
Definition item {A : Type} (l : list A) (i : nat) : outcome A :=
  py_index l (Z.of_nat i).

Definition get_averages (notes_and_times : list (Z * Z)) : outcome Q :=
  total_time ← for_each (range (length notes_and_times)) 0
    (fun total_time j =>
       nt ← item notes_and_times j;
       Return (total_time + snd nt));
  for_each (range (length notes_and_times)) 0%Q
    (fun average j =>
       nt ← item notes_and_times j;
       nt' ← item notes_and_times j;
       share ← truediv (snd nt') total_time;
       Return (average + inject_Z (fst nt) * share)%Q).

(** The inner [while True] loop of [average_notes]: emit the pitch once per
    whole quarter still contained in [time]; it is entered with
    [time >= quarter_time] and leaves with [time < quarter_time]. *)
Equations? whole_quarters (pitch : Z) (ret : list Q) (time : Z) : list Q * Z
  by wf (Z.to_nat time) lt :=
  whole_quarters pitch ret time with Z_lt_dec (time - quarter_time) quarter_time := {
    | left _ => (ret ++ [inject_Z pitch], time - quarter_time)
    | right _ => whole_quarters pitch (ret ++ [inject_Z pitch]) (time - quarter_time)
  }.
Proof. unfold quarter_time in *. lia. Qed.

(** The three loop variables of [average_notes]. *)
Record quantizer : Type := Quantizer {
  q_ret : list Q;
  q_averages : list (Z * Z);
  q_time : Z
}.

(** One iteration of [for i in range(len(original_melody))]; the three
    [if]s are tested one after the other, each on the variables as the
    previous one left them. *)
Definition average_notes_body (original_melody : list (Z * Z))
    (st : quantizer) (i : nat) : outcome quantizer :=
  ev ← item original_melody i;
  let time := q_time st + snd ev in
  if fst ev =? 0 then Return (Quantizer (q_ret st) (q_averages st) time)
  else
    let ret := q_ret st in
    let averages := q_averages st in
    let averages := if time <? quarter_time then averages ++ [ev] else averages in
    '(ret, averages, time) ←
      (if time =? quarter_time then
         let averages := averages ++ [ev] in
         a ← get_averages averages;
         Return (ret ++ [a], [], 0)
       else Return (ret, averages, time));
    if quarter_time <=? time then
      let averages := averages ++ [(fst ev, snd ev - (time - quarter_time))] in
      a ← get_averages averages;
      let ret := ret ++ [a] in
      last ← py_index averages (Z.of_nat (length averages) - 1);
      let time := snd ev - snd last in
      let '(ret, time) :=
        if quarter_time <=? time then whole_quarters (fst ev) ret time
        else (ret, time) in
      let averages := [] in
      let averages := if time =? 0 then averages else averages ++ [(fst ev, time)] in
      Return (Quantizer ret averages time)
    else Return (Quantizer ret averages time).

Definition average_notes (original_melody : list (Z * Z)) : outcome (list Q) :=
  st ← for_each (range (length original_melody)) (Quantizer [] [] 0)
         (average_notes_body original_melody);
  Return (map (fun r => r - 24)%Q (q_ret st)).

(** ** Fitness evaluator *)

(** [a > b] on floats. *)
Definition Qgtb (a b : Q) : bool := negb (Qle_bool a b).

(** [max(a, b)]: the first argument unless the second is strictly larger. *)
Definition py_max (a b : Q) : Q := if Qgtb b a then b else a.

Definition similarity_to_original_melody (individual : individual)
    (target : list Q) : outcome Q :=
  for_each (range (Nat.min (length individual) (length target))) 0%Q
    (fun score i =>
       c ← item individual i;
       let '(tonic, mediant, dominant) := c in
       t ← item target i;
       let diff_ton := Qabs (t - inject_Z tonic) in
       let diff_med := Qabs (t - inject_Z mediant) in
       let diff_dom := Qabs (t - inject_Z dominant) in
       let diff1 := py_max (10 - diff_ton) 0 in
       let diff2 := py_max (10 - diff_med) 0 in
       let diff3 := py_max (10 - diff_dom) 0 in
       let diff := (diff2 * 10 + diff1 * 5 + diff3 * 5)%Q in
       Return (score + diff)%Q).

(** The inner loop of [chord_exists] over the scale degrees [js]; it stops
    at the first matching triad ([break]). *)
Fixpoint triad_loop (tonic mediant dominant : Z) (possible_chords : list string)
    (js : list nat) (score : Z) (possible : bool) : outcome (Z * bool) :=
  match js with
  | [] => Return (score, possible)
  | j :: js' =>
      nx ← item possible_chords ((j + 0) mod 7)%nat;
      x ← note_to_midi_number nx 0;
      ny ← item possible_chords ((j + 2) mod 7)%nat;
      y ← note_to_midi_number ny 0;
      nz ← item possible_chords ((j + 4) mod 7)%nat;
      z ← note_to_midi_number nz 0;
      if (tonic =? x) && (y =? mediant) && (z =? dominant)
      then Return (score + 100, true)
      else triad_loop tonic mediant dominant possible_chords js' score possible
  end.

Definition chord_exists (individual : individual)
    (possible_chords : list string) : outcome Z :=
  for_each (range (length individual)) 0
    (fun score i =>
       c ← item individual i;
       let '(t, m, d) := c in
       let tonic := t mod 12 in
       let mediant := m mod 12 in
       let dominant := d mod 12 in
       '(score, possible) ←
         triad_loop tonic mediant dominant possible_chords
           (range (length possible_chords)) score false;
       Return (if possible : bool then score else score - 100)).

(** [individual[i][0]] *)
Definition tonic_at (individual : individual) (i : Z) : outcome Z :=
  c ← py_index individual i; Return (fst (fst c)).

Definition redundant_chords (individual : individual) : outcome Z :=
  for_each (range (length individual)) 0
    (fun (score : Z) (i : nat) =>
       score ←
         (if (2 <=? i)%nat then
            redundant ← for_each (range 3) true
              (fun (redundant : bool) (_ : nat) =>
                 first ← tonic_at individual (Z.of_nat i - 2);
                 second ← tonic_at individual (Z.of_nat i - 1);
                 third ← tonic_at individual (Z.of_nat i);
                 Return (if negb (first =? second) || negb (first =? third)
                            || negb (second =? third)
                         then false else redundant));
            Return (if redundant : bool then score - 100 else score + 100)
          else Return score);
       if (1 <=? i)%nat then
         pair ← for_each (range 3) true
           (fun (pair : bool) (_ : nat) =>
              first ← tonic_at individual (Z.of_nat i - 1);
              second ← tonic_at individual (Z.of_nat i);
              Return (if negb (first =? second) then false else pair));
         Return (if pair : bool then score + 100 else score - 100)
       else Return score).

Definition individual_fitness (individual : individual) (target : list Q)
    (possible_chords : list string) : outcome Q :=
  let score := 0%Q in
  s1 ← similarity_to_original_melody individual target;
  let score := (score + s1)%Q in
  s2 ← chord_exists individual possible_chords;
  let score := (score + inject_Z s2)%Q in
  s3 ← redundant_chords individual;
  let score := (score + inject_Z s3)%Q in
  Return score.

(** ** Result extraction *)


(** ** Scale resolver: the two tables of [get_possible_chords] *)

Definition major_keys : list (string * list string) :=
  [("C", ["C"; "D"; "E"; "F"; "G"; "A"; "B"]);
   ("C#", ["C#"; "D#"; "E#"; "F#"; "G#"; "A#"; "B#"]);
   ("D", ["D"; "E"; "F#"; "G"; "A"; "B"; "C#"]);
   ("D#", ["D#"; "F"; "G"; "G#"; "A#"; "C"; "D"]);
   ("E", ["E"; "F#"; "G#"; "A"; "B"; "C#"; "D#"]);
   ("F", ["F"; "G"; "A"; "A#"; "C"; "D"; "E"]);
   ("F#", ["F#"; "G#"; "A#"; "B"; "C#"; "D#"; "E#"]);
   ("G", ["G"; "A"; "B"; "C"; "D"; "E"; "F#"]);
   ("G#", ["G#"; "A#"; "B#"; "C#"; "D#"; "E#"; "F#"]);
   ("A", ["A"; "B"; "C#"; "D"; "E"; "F#"; "G#"]);
   ("A#", ["A#"; "C"; "D"; "D#"; "F"; "G"; "A"]);
   ("B", ["B"; "C#"; "D#"; "E"; "F#"; "G#"; "A#"])]%string.

Definition minor_keys : list (string * list string) :=
  [("C", ["C"; "D"; "D#"; "F"; "G"; "G#"; "A#"]);
   ("C#", ["C#"; "D#"; "E"; "F#"; "G#"; "A"; "B"]);
   ("D", ["D"; "E"; "F"; "G"; "A"; "A#"; "C"]);
   ("D#", ["D#"; "E#"; "F#"; "G#"; "A#"; "B"; "C#"]);
   ("E", ["E"; "F#"; "G"; "A"; "B"; "C"; "D"]);
   ("F", ["F"; "G"; "G#"; "A#"; "C"; "C#"; "D#"]);
   ("F#", ["F#"; "G"; "A"; "B"; "C#"; "D"; "E"]);
   ("G", ["G"; "A"; "A#"; "C"; "D"; "D#"; "F"]);
   ("G#", ["G#"; "A#"; "B"; "C#"; "D#"; "E"; "F#"]);
   ("A", ["A"; "B"; "C"; "D"; "E"; "F"; "G"]);
   ("A#", ["A#"; "B#"; "C#"; "D#"; "E#"; "F#"; "G#"]);
   ("B", ["B"; "C#"; "D"; "E"; "F#"; "G"; "A"])]%string.

Definition c_major : list string := ["C"; "D"; "E"; "F"; "G"; "A"; "B"]%string.

(** ** The random source

    [random.uniform], [random.randint], the index drawn by [random.choice]
    and the order drawn by [numpy.random.permutation], each consuming the
    generator state and returning the next one. *)
Record random_source : Type := RandomSource {
  rng : Type;
  uniform : Q -> Q -> rng -> Q * rng;
  randint : Z -> Z -> rng -> Z * rng;
  randbelow : nat -> rng -> nat * rng;
  shuffle : forall A : Type, list A -> rng -> list A * rng;
  randbelow_lt : forall n g, (0 < n)%nat -> (fst (randbelow n g) < n)%nat;
  shuffle_perm : forall (A : Type) (l : list A) g, Permutation l (fst (shuffle A l g))
}.

Arguments shuffle r {A} _ _.

(** A deterministic source, used to run the operations on examples: the
    state is a counter, a permutation reverses the list. *)
Program Definition counter_source : random_source :=
  {| rng := nat;
     uniform := fun a b g => ((a + (b - a) * (Z.of_nat (g mod 10) # 10))%Q, S g);
     randint := fun a b g => (a + Z.of_nat g mod (b - a + 1), S g);
     randbelow := fun n g => ((g mod n)%nat, S g);
     shuffle := fun A l g => (rev l, S g) |}.
Next Obligation. simpl. intros. apply Nat.mod_upper_bound. lia. Qed.
Next Obligation. simpl. intros. apply Permutation_rev. Qed.

(** ** Population engine: tournament selection *)

Definition selection (R : random_source) (population : list individual)
    (target : list Q) (possible_chords : list string) (g : rng R)
    : outcome (list individual * rng R) :=
  let '(tournament_bracket, g) := shuffle R population g in
  tournament_winners ←
    for_each (range (length tournament_bracket)) []
      (fun tournament_winners contestantID =>
         if negb (contestantID mod 2 =? 0)%nat then Return tournament_winners
         else
           a ← item tournament_bracket contestantID;
           fa ← individual_fitness a target possible_chords;
           b ← item tournament_bracket (contestantID + 1);
           fb ← individual_fitness b target possible_chords;
           if Qgtb fa fb then
             w ← item tournament_bracket contestantID;
             Return (tournament_winners ++ [w])
           else
             w ← item tournament_bracket (contestantID + 1);
             Return (tournament_winners ++ [w]));
  Return (tournament_winners, g).

(** ** Output encoder *)

Record message : Type := Message {
  msg_type : string;
  msg_channel : Z;
  msg_note : Z;
  msg_velocity : Z;
  msg_time : Z
}.

Record midi_file : Type := MidiFile {
  tracks : list (list message);
  ticks_per_beat : Z
}.

(** The loop of [write_output] over the chords of the best individual,
    with its two variables [generated_track] and [rest_time]. *)
Definition write_chord (st : list message * Z) (x : chord) : list message * Z :=
  let '(generated_track, rest_time) := st in
  let '(tonic, mediant, dominant) := x in
  if tonic =? 0 then (generated_track, rest_time + quarter_time)
  else
    let generated_track :=
      generated_track ++ [Message "note_on" 0 tonic 50 rest_time] in
    let rest_time := if negb (rest_time =? 0) then 0 else rest_time in
    let generated_track :=
      generated_track ++ [Message "note_on" 0 mediant 50 0] in
    let generated_track :=
      generated_track ++ [Message "note_on" 0 dominant 50 0] in
    let generated_track :=
      generated_track ++ [Message "note_off" 0 tonic 0 quarter_time] in
    let generated_track :=
      generated_track ++ [Message "note_off" 0 mediant 0 0] in
    let generated_track :=
      generated_track ++ [Message "note_off" 0 dominant 0 0] in
    (generated_track, rest_time).

(** [write_output], returning the file it saves. *)
Definition write_output (input_mid : midi_file) (best_individual : individual)
    : outcome midi_file :=
  t0 ← py_index (tracks input_mid) 0;
  t1 ← py_index (tracks input_mid) 1;
  let output_tracks := [t0; t1] in
  first ← py_index t1 0;
  let generated_track := [first] in
  let '(generated_track, _) :=
    fold_left write_chord best_individual (generated_track, 0) in
  last ← py_index t1 (Z.of_nat (length t1) - 1);
  let generated_track := generated_track ++ [last] in
  Return (MidiFile (output_tracks ++ [generated_track]) (ticks_per_beat input_mid)).

(** ** The object store

    [crossover] and [mutation] build lists and assign to their slots, and
    the genes a child receives are the very rows of its parents.  Objects
    therefore live in a store: a row (one chord) or a list of references
    to rows (one individual).  A reference is an index into the store and
    allocation appends. *)

Abbreviation loc := nat.

Inductive object : Type :=
| Row (c : chord)
| PyList (items : list loc).

Abbreviation store := (list object).

Section Programs.
Context (R : random_source).

(** Programs over the store and the random source. *)
Definition prog (A : Type) : Type := store * rng R -> outcome (A * (store * rng R)).

Definition ret {A : Type} (a : A) : prog A := fun s => Return (a, s).

Definition bnd {A B : Type} (c : prog A) (k : A -> prog B) : prog B :=
  fun s => match c s with
           | Return (a, s') => k a s'
           | Raise e => Raise e
           end.

Definition lift {A : Type} (c : outcome A) : prog A :=
  fun s => match c with
           | Return a => Return (a, s)
           | Raise e => Raise e
           end.

#[global] Instance prog_ret : MRet prog := @ret.
#[global] Instance prog_bind : MBind prog := fun A B k c => bnd c k.

Fixpoint for_each_prog {A B : Type} (xs : list B) (acc : A)
    (body : A -> B -> prog A) : prog A :=
  match xs with
  | [] => ret acc
  | x :: xs' => bnd (body acc x) (fun acc' => for_each_prog xs' acc' body)
  end.

Fixpoint map_prog {A B : Type} (f : A -> prog B) (xs : list A) : prog (list B) :=
  match xs with
  | [] => ret []
  | x :: xs' => bnd (f x) (fun y => bnd (map_prog f xs') (fun ys => ret (y :: ys)))
  end.

Definition alloc (o : object) : prog loc :=
  fun '(h, g) => Return (length h, (h ++ [o], g)).

Definition load_list (l : loc) : prog (list loc) :=
  fun '(h, g) => match h !! l with
                 | Some (PyList items) => Return (items, (h, g))
                 | _ => Raise TypeError
                 end.

Definition load_row (l : loc) : prog chord :=
  fun '(h, g) => match h !! l with
                 | Some (Row c) => Return (c, (h, g))
                 | _ => Raise TypeError
                 end.

Definition store_list (l : loc) (items : list loc) : prog unit :=
  fun '(h, g) => Return (tt, (<[l := PyList items]> h, g)).

(** [len(l)], [l[i]], [l.append(x)], [l[i] = x] on a list object. *)
Definition list_len (l : loc) : prog nat :=
  items ← load_list l; ret (length items).

Definition list_get (l : loc) (i : nat) : prog loc :=
  items ← load_list l; lift (item items i).

Definition list_append (l : loc) (x : loc) : prog unit :=
  items ← load_list l; store_list l (items ++ [x]).

Definition list_set (l : loc) (i : nat) (x : loc) : prog unit :=
  items ← load_list l;
  if (i <? length items)%nat then store_list l (<[i := x]> items)
  else lift (Raise IndexError).

Definition draw_uniform (a b : Q) : prog Q :=
  fun '(h, g) => let '(x, g') := uniform R a b g in Return (x, (h, g')).

Definition draw_randint (a b : Z) : prog Z :=
  fun '(h, g) => let '(x, g') := randint R a b g in Return (x, (h, g')).

Definition draw_shuffle {A : Type} (l : list A) : prog (list A) :=
  fun '(h, g) => let '(l', g') := shuffle R l g in Return (l', (h, g')).

(** [random.choice(seq)] *)
Definition choice {A : Type} (seq : list A) : prog A :=
  fun '(h, g) =>
    let '(k, g') := randbelow R (length seq) g in
    match item seq k with
    | Return a => Return (a, (h, g'))
    | Raise e => Raise e
    end.

(** The gene drawn by [create_population] and [mutation]: the ten
    candidates are built first, one root each, then one is chosen. *)
Definition random_chord : prog chord :=
  r1 ← draw_randint 0 110;
  r2 ← draw_randint 0 110;
  r3 ← draw_randint 0 110;
  r4 ← draw_randint 0 110;
  r5 ← draw_randint 0 110;
  r6 ← draw_randint 0 110;
  r7 ← draw_randint 0 110;
  r8 ← draw_randint 0 110;
  r9 ← draw_randint 0 110;
  choice [major_triad r1; minor_triad r2; first_inverted_major r3;
          first_inverted_minor r4; second_inverted_major r5;
          second_inverted_minor r6; sus2 r7; sus4 r8; diminished r9; rest].

(** ** Population engine: mutation and crossover *)

Definition mutation (individual : loc) : prog loc :=
  n ← list_len individual;
  _ ← for_each_prog (range n) tt
        (fun _ chord =>
           probability_of_mutation ← draw_uniform 0 1;
           if Qgtb (5 # 100) probability_of_mutation then
             c ← random_chord;
             r ← alloc (Row c);
             list_set individual chord r
           else ret tt);
  ret individual.

(** The value of an individual: its rows, read through its references. *)
Definition read_individual (l : loc) : prog individual :=
  items ← load_list l; map_prog load_row items.

Definition new_individual (v : individual) : prog loc :=
  rows ← map_prog (fun c => alloc (Row c)) v; alloc (PyList rows).

(** [np.random.permutation(population)]: the individuals are copied into a
    fresh array, whose rows are then put in a random order. *)
Definition np_permutation (population : list loc) : prog (list loc) :=
  values ← map_prog read_individual population;
  arr ← map_prog new_individual values;
  draw_shuffle arr.

(** The two children of one pair of parents, as built gene by gene before
    they are mutated. *)
Definition new_children (parent1 parent2 : loc) : prog (loc * loc) :=
  new_child1 ← alloc (PyList []);
  new_child2 ← alloc (PyList []);
  n ← list_len parent1;
  _ ← for_each_prog (range n) tt
        (fun _ i =>
           probability_of_crossover ← draw_uniform 0 1;
           if Qle_bool (1 # 2) probability_of_crossover then
             g1 ← list_get parent1 i;
             _ ← list_append new_child1 g1;
             g2 ← list_get parent2 i;
             list_append new_child2 g2
           else
             g2 ← list_get parent2 i;
             _ ← list_append new_child1 g2;
             g1 ← list_get parent1 i;
             list_append new_child2 g1);
  ret (new_child1, new_child2).

Definition crossover (population : list loc) : prog (list loc) :=
  parents ← np_permutation population;
  for_each_prog (range (length parents)) []
    (fun new_population parent =>
       if negb (parent mod 2 =? 0)%nat then ret new_population
       else
         p1 ← lift (item parents parent);
         let new_population := new_population ++ [p1] in
         p2 ← lift (item parents (parent + 1));
         let new_population := new_population ++ [p2] in
         p1 ← lift (item parents parent);
         p2 ← lift (item parents (parent + 1));
         '(new_child1, new_child2) ← new_children p1 p2;
         m1 ← mutation new_child1;
         let new_population := new_population ++ [m1] in
         m2 ← mutation new_child2;
         let new_population := new_population ++ [m2] in
         ret new_population).

End Programs.

(** Reading the store from outside a program. *)
Definition row_at (h : store) (l : loc) : option chord :=
  match h !! l with Some (Row c) => Some c | _ => None end.

Definition list_at (h : store) (l : loc) : option (list loc) :=
  match h !! l with Some (PyList items) => Some items | _ => None end.

Definition individual_at (h : store) (l : loc) : option individual :=
  items ← list_at h l; mapM (row_at h) items.

(** ** Input parser *)

(** One message of [parse_input]: a [note_on] with a delta time stands for
    the silence before it, a [note_off] with a delta time for the note that
    ends; only the branch of [note_off] reads [msg.note]. *)
Definition parse_message (pressed_keys : list (Z * Z)) (msg : message) : list (Z * Z) :=
  if String.eqb (msg_type msg) "note_on" && negb (msg_time msg =? 0)
  then pressed_keys ++ [(0, msg_time msg)]
  else if String.eqb (msg_type msg) "note_off" && negb (msg_time msg =? 0)
  then pressed_keys ++ [(msg_note msg, msg_time msg)]
  else pressed_keys.

Definition parse_input (input_mid : midi_file) : list (Z * Z) :=
  fold_left (fun pressed_keys track => fold_left parse_message track pressed_keys)
    (tracks input_mid) [].

(** ** Scale resolver *)

(** [for keys in table: if keys[0] == root_note: possible_chords = keys[1]] *)
Definition scale_lookup (table : list (string * list string)) (root_note : string)
    (possible_chords : list string) : list string :=
  fold_left (fun possible_chords keys =>
               if String.eqb (fst keys) root_note then snd keys else possible_chords)
    table possible_chords.

(** [get_possible_chords] after the key analysis, which is done by a
    library: [key_type] is [key.type] and [root_note] the capitalised first
    word of [str(key)]. *)
Definition get_possible_chords (key_type root_note : string) : list string :=
  let possible_chords := [] in
  if String.eqb key_type "minor" then scale_lookup minor_keys root_note possible_chords
  else scale_lookup major_keys root_note possible_chords.

(** ** Generation report *)



(** ** Population engine: the first population *)

Section FirstPopulation.
Context (R : random_source).

Definition create_population (size len : Z) : prog R (list loc) :=
  for_each_prog R (range (Z.to_nat size)) []
    (fun population _ =>
       individual ← alloc R (PyList []);
       _ ← for_each_prog R (range (Z.to_nat len)) tt
             (fun _ _ =>
                c ← random_chord R;
                r ← alloc R (Row c);
                list_append R individual r);
       ret R (population ++ [individual])).

End FirstPopulation.

(** * Definitions for stating the properties

    The definitions from here on are not part of the program. *)

(** ** The fitness terms in the words of the specification

    These definitions follow the specification, not the code; the
    theorems below compare them with the loops of the code. *)

(** [sum over i < n of f i] *)
Fixpoint sum_upto (n : nat) (f : nat -> Q) : Q :=
  match n with
  | O => 0
  | S n' => sum_upto n' f + f n'
  end%Q.

(** [max(10 - |t - x|, 0)] *)
Definition capped_proximity (t : Q) (x : Z) : Q :=
  Qmax (10 - Qabs (t - inject_Z x)) 0.

Definition slot_similarity (t : Q) (c : chord) : Q :=
  let '(tonic, mediant, dominant) := c in
  (capped_proximity t mediant * 10 + capped_proximity t tonic * 5
   + capped_proximity t dominant * 5)%Q.

Definition similarity_sum (individual : individual) (target : list Q) : Q :=
  sum_upto (Nat.min (length individual) (length target))
    (fun i => slot_similarity (nth i target 0%Q) (nth i individual (0, 0, 0))).

(** The pitch class of a scale-degree name: the pitch codec at octave 0. *)
Definition pitch_class_of (name : string) : Z :=
  match note_to_midi_number name 0 with
  | Return v => v
  | Raise _ => 0
  end.

(** The diatonic triad on degree [j]: degrees [j], [j + 2 mod 7], [j + 4 mod 7]. *)
Definition diatonic_triad (scale : list string) (j : nat) : Z * Z * Z :=
  (pitch_class_of (nth (j mod 7) scale ""%string),
   pitch_class_of (nth ((j + 2) mod 7) scale ""%string),
   pitch_class_of (nth ((j + 4) mod 7) scale ""%string)).

(** The chord, reduced mod 12, is one of the seven diatonic triads. *)
Definition in_scale (scale : list string) (c : chord) : bool :=
  let '(tonic, mediant, dominant) := c in
  existsb (fun j =>
             let '(x, y, z) := diatonic_triad scale j in
             (tonic mod 12 =? x) && (mediant mod 12 =? y) && (dominant mod 12 =? z))
          (seq 0 7).

(** [+100] for each chord in the scale, [-100] for each other chord. *)
Definition scale_membership (individual : individual) (scale : list string) : Z :=
  fold_right (fun c total => (if in_scale scale c then 100 else -100) + total)
    0 individual.

(** ** Fitness values and the tournament *)

(** The fitness as a number, for stating properties of the operations
    that compare fitnesses. *)
Definition fitness_value (individual : individual) (target : list Q)
    (possible_chords : list string) : Q :=
  match individual_fitness individual target possible_chords with
  | Return f => f
  | Raise _ => 0
  end.

(** One match of the tournament, in the words of the specification: keep
    the first of the pair when its fitness is strictly higher, otherwise the
    second. *)
Definition survivor (target : list Q) (possible_chords : list string)
    (a b : individual) : individual :=
  if Qgtb (fitness_value a target possible_chords)
          (fitness_value b target possible_chords)
  then a else b.

Fixpoint tournament (target : list Q) (possible_chords : list string)
    (bracket : list individual) : list individual :=
  match bracket with
  | a :: b :: bracket' =>
      survivor target possible_chords a b :: tournament target possible_chords bracket'
  | _ => []
  end.

(** ** Predicates on stores, for stating what [crossover] keeps *)

(** Every object of [h] is still there, unchanged, in [h']. *)
Definition preserves (h h' : store) : Prop :=
  forall l o, h !! l = Some o -> h' !! l = Some o.

(** What [mutation] keeps of the store [h] it started from: every object
    but the mutated list, which stays a list of the same length. *)
Definition mutated (h : store) (individual : loc) (n : nat) (h' : store) : Prop :=
  (forall l o, l <> individual -> h !! l = Some o -> h' !! l = Some o) /\
  exists items, list_at h' individual = Some items /\ length items = n.

(** [c1] and [c2] are the children that [new_children] built from the
    parents [p1] and [p2], in a store that preserves [h]. *)
Definition built_from (R : random_source) (h : store) (p1 p2 c1 c2 : loc) : Prop :=
  exists h_pre g_pre h_mid g_mid,
    preserves h h_pre /\
    new_children R p1 p2 (h_pre, g_pre) = Return ((c1, c2), (h_mid, g_mid)).

(** The shape of the new population: each pair of parents is followed by
    the two children built from it. *)
Inductive next_generation (R : random_source) (h : store) : list loc -> list loc -> Prop :=
| next_generation_nil : next_generation R h [] []
| next_generation_pair p1 p2 c1 c2 parents new_population :
    built_from R h p1 p2 c1 c2 ->
    next_generation R h parents new_population ->
    next_generation R h (p1 :: p2 :: parents) (p1 :: p2 :: c1 :: c2 :: new_population).


(** A store holding two individuals of two chords each, at references 2
    and 5, for running [crossover] on an example. *)
Definition example_store : store :=
  [Row (0, 4, 7); Row (2, 5, 9); PyList [0; 1]%nat;
   Row (1, 1, 1); Row (3, 3, 3); PyList [3; 4]%nat].

(** ** The state of the quantizer between two notes *)

(** The total duration of a buffer. *)
Definition buffer_time (averages : list (Z * Z)) : Z :=
  foldr (fun nt s => snd nt + s) 0 averages.

(** In a melody without gaps the buffer holds the notes of the current
    quarter: sounding parts of positive duration that add up to the time
    elapsed in the quarter, which is less than a quarter. *)
Definition quantizer_ok (st : quantizer) : Prop :=
  0 <= q_time st < quarter_time /\
  buffer_time (q_averages st) = q_time st /\
  Forall (fun nt => fst nt <> 0 /\ 0 < snd nt) (q_averages st).

(** ** Rounding in the float quotient of the pitch codec *)

(** The end of [binary_round_aux], after the mantissa was rounded. *)
Definition round_tail (m e : Z) : spec_float :=
  let '(mrs'', e'') := shr_fexp 53 1024 m e loc_Exact in
  match shr_m mrs'' with
  | Z0 => S754_zero false
  | Zpos m => if Z.leb e'' (1024 - 53) then S754_finite false m e'' else S754_infinity false
  | _ => S754_nan
  end.

(** ** Pitch classes of chords *)

(** Two chords whose tones differ by whole octaves. *)
Definition same_pitch_classes (c c' : chord) : Prop :=
  let '(t, m, d) := c in
  let '(t', m', d') := c' in
  t mod 12 = t' mod 12 /\ m mod 12 = m' mod 12 /\ d mod 12 = d' mod 12.

(** ** The redundancy term of the fitness, chord by chord *)

Definition tonic_of (c : chord) : Z := fst (fst c).

(** What a chord of tonic [c] adds, given the tonics of the chords before
    it, the nearest first: -100 when it repeats the two chords before it
    and +100 when it does not, then +100 when it repeats the chord before it
    and -100 when it does not. *)
Definition redundancy_term (before : list Z) (c : Z) : Z :=
  match before with
  | b :: a :: _ => if (a =? b) && (b =? c) then -100 else 100
  | _ => 0
  end
  + match before with
    | b :: _ => if b =? c then 100 else -100
    | [] => 0
    end.

Fixpoint redundancy (before tonics : list Z) : Z :=
  match tonics with
  | [] => 0
  | c :: tonics' => redundancy_term before c + redundancy (c :: before) tonics'
  end.

(** ** The weighted mean of a buffer *)


(** ** The quantizer, event by event *)

(** One iteration of the loop of [average_notes] on the event it reads:
    [average_notes_body] reads [original_melody[i]] and goes on with
    nothing but that event. *)
Definition quantize_event (st : quantizer) (ev : Z * Z) : outcome quantizer :=
  let time := q_time st + snd ev in
  if fst ev =? 0 then Return (Quantizer (q_ret st) (q_averages st) time)
  else
    let ret := q_ret st in
    let averages := q_averages st in
    let averages := if time <? quarter_time then averages ++ [ev] else averages in
    '(ret, averages, time) ←
      (if time =? quarter_time then
         let averages := averages ++ [ev] in
         a ← get_averages averages;
         Return (ret ++ [a], [], 0)
       else Return (ret, averages, time));
    if quarter_time <=? time then
      let averages := averages ++ [(fst ev, snd ev - (time - quarter_time))] in
      a ← get_averages averages;
      let ret := ret ++ [a] in
      last ← py_index averages (Z.of_nat (length averages) - 1);
      let time := snd ev - snd last in
      let '(ret, time) :=
        if quarter_time <=? time then whole_quarters (fst ev) ret time
        else (ret, time) in
      let averages := [] in
      let averages := if time =? 0 then averages else averages ++ [(fst ev, time)] in
      Return (Quantizer ret averages time)
    else Return (Quantizer ret averages time).


(** ** The accompaniment track *)

(** A MIDI note number: the values a note message can carry. *)
Definition midi_note (x : Z) : Prop := 0 <= x <= 127.

Definition playable (c : chord) : Prop :=
  let '(t, m, d) := c in midi_note t /\ midi_note m /\ midi_note d.

(** The chords the output loop writes out: those whose tonic is not 0. *)
Definition sounding (c : chord) : bool := negb (tonic_of c =? 0).

(** The six messages of a sounding chord written after a silence of
    [rest_time] ticks. *)
Definition chord_messages (rest_time : Z) (c : chord) : list message :=
  let '(tonic, mediant, dominant) := c in
  [Message "note_on" 0 tonic 50 rest_time;
   Message "note_on" 0 mediant 50 0;
   Message "note_on" 0 dominant 50 0;
   Message "note_off" 0 tonic 0 quarter_time;
   Message "note_off" 0 mediant 0 0;
   Message "note_off" 0 dominant 0 0].

(** The ticks of a track: the sum of the delta times of its messages. *)
Definition track_time (track : list message) : Z :=
  foldr (fun msg s => msg_time msg + s) 0 track.

(** The silence that is pending after the last chord: one quarter for
    each chord of tonic 0 since the last sounding chord. *)
Definition pending_rest (individual : individual) : Z :=
  fold_left (fun rest_time c => if sounding c then 0 else rest_time + quarter_time)
    individual 0.

(** A message that [parse_input] reads: a [note_on] or a [note_off]. *)
Definition note_message (msg : message) : bool :=
  String.eqb (msg_type msg) "note_on" || String.eqb (msg_type msg) "note_off".

(** ** Melodies played legato *)


(** ** Genes drawn at random *)

(** [random.randint(a, b)] returns an integer between [a] and [b]. *)
Definition randint_in_range (R : random_source) : Prop :=
  forall a b (g : rng R), a <= b -> a <= fst (randint R a b g) <= b.

(** The rest, or a chord of three MIDI notes. *)
Definition catalog_chord (c : chord) : Prop := c = rest \/ playable c.

(** Every object of [h] but the one at [l] is still there, unchanged, in
    [h']. *)
Definition preserves_but (l : loc) (h h' : store) : Prop :=
  forall l' o, l' <> l -> h !! l' = Some o -> h' !! l' = Some o.

(** What [mutation] makes of the genes [items] of an individual of the
    store [h]: in the store [h'] each gene of [items'] is the gene that was
    there, or a chord allocated since, of the catalog. *)
Definition genes_kept_or_fresh (h : store) (items : list loc)
    (h' : store) (items' : list loc) : Prop :=
  length items' = length items /\
  forall i r, items' !! i = Some r ->
    items !! i = Some r \/
    ((length h <= r)%nat /\ exists c, row_at h' r = Some c /\ catalog_chord c).
(** * Properties *)

(** ** Loops over [range(len(l))] *)

Lemma item_lookup {A : Type} (l : list A) (i : nat) :
  item l i = match l !! i with Some a => Return a | None => Raise IndexError end.
Proof.
  unfold item, py_index.
  destruct (Z.ltb_spec (Z.of_nat i) 0) as [Hneg | _]; [lia |].
  destruct (Z.ltb_spec (Z.of_nat i) 0) as [Hneg | _]; [lia |].
  by rewrite Nat2Z.id.
Qed.

Lemma item_Some {A : Type} (l : list A) (i : nat) (a : A) :
  l !! i = Some a -> item l i = Return a.
Proof. intros H. by rewrite item_lookup, H. Qed.

Lemma lookup_nth {A : Type} (l : list A) (i : nat) (d : A) :
  (i < length l)%nat -> l !! i = Some (nth i l d).
Proof.
  intros Hi. destruct (lookup_lt_is_Some_2 l i Hi) as [a Ha].
  rewrite Ha. f_equal. symmetry. by apply nth_lookup_Some.
Qed.

Lemma py_index_last {A : Type} (l : list A) (x : A) :
  py_index (l ++ [x]) (Z.of_nat (length (l ++ [x])) - 1) = Return x.
Proof.
  replace (Z.of_nat (length (l ++ [x])) - 1) with (Z.of_nat (length l))
    by (rewrite length_app; simpl; lia).
  change (py_index (l ++ [x]) (Z.of_nat (length l))) with (item (l ++ [x]) (length l)).
  apply item_Some. by rewrite list_lookup_middle.
Qed.

Lemma for_each_app {A B : Type} (xs ys : list B) (acc : A) body :
  for_each (xs ++ ys) acc body = (acc' ← for_each xs acc body; for_each ys acc' body).
Proof.
  revert acc. induction xs as [| x xs IH]; intros acc; simpl; [done |].
  destruct (body acc x) as [acc' | e]; simpl; [apply IH | done].
Qed.

Lemma for_each_range_from {A B : Type} (pre suf : list B) (acc : A)
    (body : A -> nat -> outcome A) (f : A -> B -> outcome A) :
  (forall a i x, (pre ++ suf) !! i = Some x -> body a i = f a x) ->
  for_each (seq (length pre) (length suf)) acc body = for_each suf acc f.
Proof.
  revert pre acc. induction suf as [| b suf IH]; intros pre acc Hbody; simpl; [done |].
  rewrite (Hbody acc (length pre) b) by (by rewrite list_lookup_middle).
  destruct (f acc b) as [acc' | e]; simpl; [| done].
  specialize (IH (pre ++ [b]) acc').
  rewrite length_app, Nat.add_1_r, <- app_assoc in IH. by apply IH.
Qed.

Lemma for_each_range {A B : Type} (l : list B) (acc : A)
    (body : A -> nat -> outcome A) (f : A -> B -> outcome A) :
  (forall a i x, l !! i = Some x -> body a i = f a x) ->
  for_each (range (length l)) acc body = for_each l acc f.
Proof. apply (for_each_range_from [] l). Qed.

(** Indexing [l] by [range(len(l))] visits the elements of [l] in order. *)
Lemma for_each_items_from {A B : Type} (pre suf : list B) (acc : A)
    (f : A -> B -> outcome A) :
  for_each (seq (length pre) (length suf)) acc
    (fun a i => x ← item (pre ++ suf) i; f a x)
  = for_each suf acc f.
Proof.
  revert pre acc. induction suf as [| b suf IH]; intros pre acc; simpl; [done |].
  rewrite item_lookup, list_lookup_middle by done. simpl.
  destruct (f acc b) as [acc' | e]; simpl; [| done].
  specialize (IH (pre ++ [b]) acc').
  rewrite length_app, Nat.add_1_r, <- app_assoc in IH. apply IH.
Qed.

Lemma for_each_items {A B : Type} (l : list B) (acc : A) (f : A -> B -> outcome A) :
  for_each (range (length l)) acc (fun a i => x ← item l i; f a x)
  = for_each l acc f.
Proof. apply (for_each_items_from [] l). Qed.

Lemma for_each_returns {A B : Type} (xs : list B) (acc : A) (body : A -> B -> outcome A) :
  (forall a x, x ∈ xs -> exists a', body a x = Return a') ->
  exists r, for_each xs acc body = Return r.
Proof.
  revert acc. induction xs as [| x xs IH]; intros acc Hbody; simpl; [by eexists |].
  destruct (Hbody acc x) as [a' Ha']; [by left |]. rewrite Ha'. simpl.
  apply IH. intros a y Hy. apply Hbody. by right.
Qed.

Lemma for_each_invariant {A B : Type} (P : A -> Prop) (xs : list B) (acc : A)
    (body : A -> B -> outcome A) :
  P acc ->
  (forall a x, x ∈ xs -> P a -> exists a', body a x = Return a' /\ P a') ->
  exists r, for_each xs acc body = Return r /\ P r.
Proof.
  revert acc. induction xs as [| x xs IH]; intros acc Hacc Hbody; simpl.
  - by exists acc.
  - destruct (Hbody acc x) as (a' & Ha' & HP); [by left | done |].
    rewrite Ha'. simpl. apply IH; [done |].
    intros a y Hy. apply Hbody. by right.
Qed.

(** ** Pitch codec *)


(** *** The float quotient [midi_number / 12] *)

Lemma digits2_pos_bounds (p : positive) :
  2 ^ (Z.pos (digits2_pos p) - 1) <= Z.pos p < 2 ^ Z.pos (digits2_pos p).
Proof.
  induction p as [p IH | p IH |]; cbn [digits2_pos].
  - rewrite Pos2Z.inj_succ.
    replace (Z.succ (Z.pos (digits2_pos p)) - 1) with (Z.succ (Z.pos (digits2_pos p) - 1)) by lia.
    rewrite !Z.pow_succ_r by lia. lia.
  - rewrite Pos2Z.inj_succ.
    replace (Z.succ (Z.pos (digits2_pos p)) - 1) with (Z.succ (Z.pos (digits2_pos p) - 1)) by lia.
    rewrite !Z.pow_succ_r by lia. lia.
  - simpl. lia.
Qed.

Lemma digits2_unique (q : positive) (d : Z) :
  2 ^ (d - 1) <= Z.pos q < 2 ^ d -> 1 <= d -> Z.pos (digits2_pos q) = d.
Proof.
  intros Hq Hd. pose proof (digits2_pos_bounds q) as Hb.
  set (d' := Z.pos (digits2_pos q)) in *.
  assert (Hd' : 1 <= d') by (unfold d'; lia).
  destruct (Z.lt_trichotomy d' d) as [Hlt | [Heq | Hgt]]; [| exact Heq |].
  - assert (2 ^ d' <= 2 ^ (d - 1)) by (apply Z.pow_le_mono_r; lia). lia.
  - assert (2 ^ d <= 2 ^ (d' - 1)) by (apply Z.pow_le_mono_r; lia). lia.
Qed.

Lemma shr_1_pos (m : positive) (r s : bool) :
  shr_1 (Build_shr_record (Z.pos m) r s)
  = Build_shr_record (Z.pos m / 2) (Z.odd (Z.pos m)) (r || s).
Proof.
  destruct m as [m | m |]; cbn [shr_1].
  - f_equal. rewrite Pos2Z.inj_xI. rewrite Z.mul_comm, Z.div_add_l by lia.
    rewrite Z.div_small by lia. lia.
  - f_equal. rewrite Pos2Z.inj_xO. rewrite Z.mul_comm, Z.div_mul by lia. reflexivity.
  - reflexivity.
Qed.

Lemma binary_round_aux_tail (mx ex : Z) (lx : location) :
  binary_round_aux 53 1024 false mx ex lx
  = round_tail (round_nearest_even (shr_m (fst (shr_fexp 53 1024 mx ex lx)))
                                   (loc_of_shr_record (fst (shr_fexp 53 1024 mx ex lx))))
               (snd (shr_fexp 53 1024 mx ex lx)).
Proof.
  unfold binary_round_aux, round_tail.
  destruct (shr_fexp 53 1024 mx ex lx) as [mrs' e']. reflexivity.
Qed.

Lemma shr_fexp_53 (q : positive) (e : Z) (l : location) :
  -1074 <= e -> 2 ^ 52 <= Z.pos q < 2 ^ 53 ->
  shr_fexp 53 1024 (Z.pos q) e l = (shr_record_of_loc (Z.pos q) l, e).
Proof.
  intros He Hq. unfold shr_fexp. cbn [Zdigits2].
  rewrite (digits2_unique q 53) by (change (53 - 1) with 52; lia).
  unfold fexp, emin.
  replace (Z.max (53 + e - 53) (3 - 1024 - 53) - e) with 0 by lia.
  reflexivity.
Qed.

Lemma shr_fexp_54 (q : positive) (e : Z) (l : location) :
  -1074 <= e -> 2 ^ 53 <= Z.pos q < 2 ^ 54 ->
  shr_fexp 53 1024 (Z.pos q) e l
  = (shr_1 (shr_record_of_loc (Z.pos q) l), e + 1).
Proof.
  intros He Hq. unfold shr_fexp. cbn [Zdigits2].
  rewrite (digits2_unique q 54) by (change (54 - 1) with 53; lia).
  unfold fexp, emin.
  replace (Z.max (54 + e - 53) (3 - 1024 - 53) - e) with 1 by lia.
  reflexivity.
Qed.

(** A mantissa of 53 bits, or [2^53], is delivered as it is. *)
Lemma round_tail_int (m e : Z) :
  -1074 <= e <= -2 -> 2 ^ 52 <= m <= 2 ^ 53 ->
  float_to_int (round_tail m e) = Return (m / 2 ^ (- e)).
Proof.
  intros He Hm. unfold round_tail.
  destruct m as [| p | p]; try lia.
  destruct (Z.eq_dec (Z.pos p) (2 ^ 53)) as [Heq | Hne].
  - rewrite Heq.
    assert (H54 : shr_fexp 53 1024 (2 ^ 53) e loc_Exact
                  = (shr_1 (shr_record_of_loc (2 ^ 53) loc_Exact), e + 1)).
    { change (2 ^ 53) with (Z.pos (2 ^ 53)). apply shr_fexp_54; lia. }
    rewrite H54. cbn [shr_record_of_loc]. 
    change (2 ^ 53) with (Z.pos (2 ^ 53)). rewrite shr_1_pos. cbn [shr_m].
    change (Z.pos (2 ^ 53) / 2) with (Z.pos (2 ^ 52)). cbv iota beta.
    destruct (Z.leb_spec (e + 1) (1024 - 53)); [| lia].
    cbn [float_to_int]. f_equal.
    destruct (Z.leb_spec 0 (e + 1)); [lia |].
    replace (2 ^ (- e)) with (2 * 2 ^ (- (e + 1))).
    2:{ rewrite <- Z.pow_succ_r by lia. f_equal. lia. }
    change (Z.pos (2 ^ 53)) with (2 * Z.pos (2 ^ 52)).
    rewrite Z.div_mul_cancel_l; [reflexivity | | lia].
    apply Z.pow_nonzero; lia.
  - rewrite shr_fexp_53 by lia. cbn [shr_record_of_loc shr_m]. 
    destruct (Z.leb_spec e (1024 - 53)); [| lia].
    cbn [float_to_int]. f_equal. destruct (Z.leb_spec 0 e); [lia |]. reflexivity.
Qed.

Lemma shr_record_of_loc_m (m : Z) (l : location) : shr_m (shr_record_of_loc m l) = m.
Proof. destruct l as [| []]; reflexivity. Qed.

Lemma loc_of_shr_record_of_loc (m : Z) (l : location) :
  loc_of_shr_record (shr_record_of_loc m l) = l.
Proof. destruct l as [| []]; reflexivity. Qed.

(** A quotient of 53 bits is rounded to itself or to its successor, the
    latter only from the midpoint on. *)
Lemma round_aux_53 (q : positive) (e : Z) (l : location) :
  -1074 <= e <= -2 -> 2 ^ 52 <= Z.pos q < 2 ^ 53 ->
  exists mant,
    float_to_int (binary_round_aux 53 1024 false (Z.pos q) e l)
    = Return (mant / 2 ^ (- e)) /\
    (mant = Z.pos q \/
     (mant = Z.pos q + 1 /\ (l = loc_Inexact Eq \/ l = loc_Inexact Gt))).
Proof.
  intros He Hq. rewrite binary_round_aux_tail, shr_fexp_53 by lia.
  cbn [fst snd]. rewrite shr_record_of_loc_m, loc_of_shr_record_of_loc.
  exists (round_nearest_even (Z.pos q) l). split.
  - apply round_tail_int; [lia |].
    destruct l as [| []]; cbn [round_nearest_even]; try destruct (Z.even (Z.pos q)); lia.
  - destruct l as [| []]; cbn [round_nearest_even]; try destruct (Z.even (Z.pos q));
      try (left; reflexivity); right; split; auto.
Qed.

(** A quotient of 54 bits loses its last bit and is rounded to its half or
    to the successor of its half, the latter only when the bit lost is 1. *)
Lemma round_aux_54 (q : positive) (e : Z) (l : location) :
  -1074 <= e <= -3 -> 2 ^ 53 <= Z.pos q < 2 ^ 54 ->
  exists mant,
    float_to_int (binary_round_aux 53 1024 false (Z.pos q) e l)
    = Return (mant / 2 ^ (- (e + 1))) /\
    (mant = Z.pos q / 2 \/ (mant = Z.pos q / 2 + 1 /\ Z.odd (Z.pos q) = true)).
Proof.
  intros He Hq. rewrite binary_round_aux_tail, shr_fexp_54 by lia.
  cbn [fst snd].
  assert (Hhalf : 2 ^ 52 <= Z.pos q / 2 < 2 ^ 53).
  { change (2 ^ 53) with (2 * 2 ^ 52) in Hq. change (2 ^ 54) with (2 * 2 ^ 53) in Hq.
    split; [apply Z.div_le_lower_bound; lia | apply Z.div_lt_upper_bound; lia]. }
  set (rec := shr_1 (shr_record_of_loc (Z.pos q) l)).
  assert (Hrec : shr_m rec = Z.pos q / 2 /\ shr_r rec = Z.odd (Z.pos q)).
  { unfold rec. destruct l as [| []]; cbn [shr_record_of_loc];
      rewrite shr_1_pos; split; reflexivity. }
  destruct Hrec as [Hm Hr].
  exists (round_nearest_even (shr_m rec) (loc_of_shr_record rec)).
  assert (Hcases : round_nearest_even (shr_m rec) (loc_of_shr_record rec) = Z.pos q / 2 \/
                   (round_nearest_even (shr_m rec) (loc_of_shr_record rec) = Z.pos q / 2 + 1
                    /\ Z.odd (Z.pos q) = true)).
  { rewrite <- Hr, <- Hm. destruct rec as [m [|] [|]];
      cbn [loc_of_shr_record round_nearest_even shr_m shr_r];
      try destruct (Z.even m); auto. }
  split; [| exact Hcases].
  apply round_tail_int; [lia |]. destruct Hcases as [-> | [-> _]]; lia.
Qed.

(** Below octave [2^50] the float quotient of a pitch by 12, truncated, is
    the octave: rounding never reaches the next integer. *)
Lemma binary64_quotient_by_12 (o idx : Z) (p : positive) :
  0 <= o < 2 ^ 50 -> 0 <= idx < 12 -> Z.pos p = 12 * o + idx ->
  float_to_int (SFdiv 53 1024 (S754_finite false p 0) (S754_finite false 12 0))
  = Return o.
Proof.
  intros Ho Hidx Hp.
  unfold SFdiv, SFdiv_core_binary.
  cbn [xorb Zdigits2].
  change (Z.pos (digits2_pos 12)) with 4.
  pose proof (digits2_pos_bounds p) as Hd.
  set (d := Z.pos (digits2_pos p)) in *.
  assert (Hd1 : 1 <= d) by (unfold d; lia).
  assert (Hd54 : d <= 54).
  { destruct (Z.le_gt_cases d 54) as [| Hgt]; [assumption |].
    assert (2 ^ 54 <= 2 ^ (d - 1)) by (apply Z.pow_le_mono_r; lia).
    change (2 ^ 50) with 1125899906842624 in Ho.
    change (2 ^ 54) with 18014398509481984 in *. lia. }
  replace (Z.min (fexp 53 1024 (d + 0 - (4 + 0))) (0 - 0)) with (d - 57)
    by (unfold fexp, emin; lia).
  replace (0 - 0 - (d - 57)) with (57 - d) by lia.
  (* the dividend is shifted to 57 bits *)
  assert (Hshift : match 57 - d with
                   | 0 => Z.pos p
                   | Z.pos _ => Z.shiftl (Z.pos p) (57 - d)
                   | Z.neg _ => 0
                   end = Z.pos p * 2 ^ (57 - d)).
  { destruct (57 - d) eqn:E; try lia. rewrite Z.shiftl_mul_pow2 by lia. reflexivity. }
  rewrite Hshift. clear Hshift.
  set (X := 2 ^ (57 - d)).
  assert (HX8 : 8 <= X).
  { unfold X. change 8 with (2 ^ 3). apply Z.pow_le_mono_r; lia. }
  assert (HpX : 2 ^ 56 <= Z.pos p * X < 2 ^ 57).
  { replace 56 with ((d - 1) + (57 - d)) by lia.
    replace 57 with (d + (57 - d)) at 2 by lia.
    rewrite !Z.pow_add_r by lia. fold X. nia. }
  pose proof (Z.div_eucl_eq (Z.pos p * X) 12 ltac:(lia)) as Heq.
  pose proof (Z.mod_pos_bound (Z.pos p * X) 12 ltac:(lia)) as Hr.
  unfold Z.modulo in Hr.
  destruct (Z.div_eucl (Z.pos p * X) 12) as [q r].
  (* the quotient has 53 or 54 bits *)
  change (2 ^ 56) with (16 * 2 ^ 52) in HpX. change (2 ^ 57) with (8 * 2 ^ 54) in HpX.
  assert (Hq : 2 ^ 52 <= q < 2 ^ 54) by lia.
  destruct q as [| q | q]; try lia.
  assert (Hloc : (new_location 12 r = loc_Inexact Eq \/ new_location 12 r = loc_Inexact Gt)
                 -> 6 <= r).
  { unfold new_location, new_location_even. cbn [Z.even].
    destruct (Z.eqb_spec r 0) as [| _]; [intros [Hl | Hl]; discriminate Hl |].
    destruct (Z.compare_spec (2 * r) 12); intros [Hl | Hl]; try discriminate Hl; lia. }
  set (A := o * X). set (T := idx * X).
  assert (HT : 0 <= T <= 11 * X) by (unfold T; nia).
  assert (HA : Z.pos p * X = 12 * A + T) by (unfold A, T; rewrite Hp; ring).
  assert (Hdiv : forall w, 0 <= w < X -> (A + w) / X = o).
  { intros w Hw. unfold A. rewrite Z.div_add_l by lia. rewrite Z.div_small by lia. lia. }
  destruct (Z.lt_ge_cases (Z.pos q) (2 ^ 53)) as [H53 | H54].
  - destruct (round_aux_53 q (d - 57) (new_location 12 r)) as (mant & -> & Hmant);
      [lia | lia |].
    replace (- (d - 57)) with (57 - d) by lia. fold X. f_equal.
    replace mant with (A + (mant - A)) by ring. apply Hdiv.
    destruct Hmant as [-> | [-> Hup]]; [lia |].
    apply Hloc in Hup. lia.
  - assert (Hd53 : d <= 53).
    { destruct (Z.le_gt_cases d 53) as [| Hgt]; [assumption |].
      assert (Hd' : 57 - d = 3) by lia. unfold X in *. rewrite Hd' in *.
      change (2 ^ 3) with 8 in *. change (2 ^ 50) with 1125899906842624 in Ho.
      change (2 ^ 53) with 9007199254740992 in H54. lia. }
    destruct (round_aux_54 q (d - 57) (new_location 12 r)) as (mant & -> & Hmant);
      [lia | lia |].
    replace (- (d - 57 + 1)) with (56 - d) by lia. f_equal.
    set (X' := 2 ^ (56 - d)).
    assert (HX' : X = 2 * X').
    { unfold X, X'. replace (57 - d) with (Z.succ (56 - d)) by lia.
      rewrite Z.pow_succ_r by lia. reflexivity. }
    assert (HX'8 : 8 <= X').
    { unfold X'. change 8 with (2 ^ 3). apply Z.pow_le_mono_r; lia. }
    pose proof (Z.div_mod (Z.pos q) 2 ltac:(lia)) as Hq2.
    pose proof (Zmod_odd (Z.pos q)) as Hodd.
    set (q2 := Z.pos q / 2) in *.
    set (A' := o * X'). set (T' := idx * X').
    assert (HT' : 0 <= T' <= 11 * X') by (unfold T'; nia).
    assert (HA' : Z.pos p * X = 24 * A' + 2 * T') by (unfold A', T'; rewrite Hp, HX'; ring).
    replace mant with (A' + (mant - A')) by ring.
    unfold A'. rewrite Z.div_add_l by lia. rewrite Z.div_small; [lia |]. fold A'.
    destruct Hmant as [-> | [-> Hup]].
    + destruct (Z.odd (Z.pos q)); lia.
    + rewrite Hup in Hodd. lia.
Qed.

Lemma int_truediv_by_12 (o idx : Z) :
  0 <= o < 2 ^ 50 -> 0 <= idx < 12 ->
  (q ← int_truediv (o * 12 + idx) 12; float_to_int q) = Return o.
Proof.
  intros Ho Hidx. unfold int_truediv. cbn [Z.eqb int_operand].
  destruct (o * 12 + idx) as [| p | p] eqn:Hp; [| | lia].
  - assert (o = 0) as -> by lia. reflexivity.
  - pose proof (binary64_quotient_by_12 o idx p Ho Hidx ltac:(lia)) as Hq.
    cbn [int_operand].
    destruct (SFdiv 53 1024 (S754_finite false p 0) (S754_finite false 12 0));
      cbn [float_to_int mbind outcome_bind] in *; first [exact Hq | discriminate Hq].
Qed.

(** [midi_number_to_note] on the pitch of degree [k] of octave [o]. *)
Lemma midi_number_to_note_decodes (o k : Z) (name : string) :
  0 <= o < 2 ^ 50 -> 0 <= k < 12 -> notes !! Z.to_nat k = Some name ->
  midi_number_to_note (o * 12 + k) = Return (name, o).
Proof.
  intros Ho Hk Hname. unfold midi_number_to_note.
  pose proof (int_truediv_by_12 o k Ho Hk) as Hq.
  destruct (int_truediv (o * 12 + k) 12) as [q | e]; [| discriminate Hq].
  cbn [mbind outcome_bind] in *. rewrite Hq. cbn [mbind outcome_bind]. cbv zeta.
  replace (o * 12 + k - o * 12) with k by lia.
  assert (Hk0 : (k <? 0) = false) by lia.
  unfold py_index. cbv zeta. rewrite Hk0. cbv iota. rewrite Hk0, Hname. reflexivity.
Qed.

(** C9, as stated, fails: in octave [2^50] the pitch of ["B"] is
    [12 * 2^50 + 11], its float quotient by 12 is rounded up to
    [2^50 + 1], the degree becomes [-1], which indexes the last name, and
    the round trip returns octave [2^50 + 1]. *)
Lemma pitch_round_trip_rounds_up :
  In "B"%string notes /\ 0 <= 2 ^ 50 /\
  (m ← note_to_midi_number "B" (2 ^ 50); midi_number_to_note m)
  = Return ("B"%string, 2 ^ 50 + 1) /\
  (m ← note_to_midi_number "B" (2 ^ 50); midi_number_to_note m)
  <> Return ("B"%string, 2 ^ 50).
Proof.
  assert (Hrun : (m ← note_to_midi_number "B" (2 ^ 50); midi_number_to_note m)
                 = Return ("B"%string, 2 ^ 50 + 1)) by (vm_compute; reflexivity).
  split; [| split; [| split]].
  - unfold notes. simpl. tauto.
  - lia.
  - exact Hrun.
  - rewrite Hrun. intros Heq. injection Heq as Heq. vm_compute in Heq. discriminate Heq.
Qed.

(** C9, amended. Round trip of the pitch codec: for every name [n] of the
    chromatic list and every octave [o] with [0 <= o < 2^50], converting
    [(n, o)] to a pitch with [note_to_midi_number] and back with
    [midi_number_to_note] returns [(n, o)]. *)
Theorem pitch_round_trip (n : string) (o : Z) :
  In n notes -> 0 <= o < 2 ^ 50 ->
  (m ← note_to_midi_number n o; midi_number_to_note m) = Return (n, o).
Proof.
  intros Hin Ho. unfold note_to_midi_number.
  unfold notes in Hin. simpl in Hin.
  repeat (destruct Hin as [<- | Hin];
          [ cbn [note_number_loop notes String.eqb Ascii.eqb Bool.eqb];
            match goal with
            | |- context [o * 12 + ?k] =>
                apply (midi_number_to_note_decodes o k); [lia | lia | reflexivity]
            end |]).
  destruct Hin.
Qed.

Lemma pitch_round_trip_witness :
  (m ← note_to_midi_number "G" 5; midi_number_to_note m) = Return ("G"%string, 5).
Proof. apply (pitch_round_trip "G" 5); [simpl; tauto | lia]. Defined.




(** ** Output encoder *)


(** ** Melody quantizer *)

Lemma get_averages_single (p d : Z) :
  d <> 0 ->
  exists a, get_averages [(p, d)] = Return a /\ (a == inject_Z p)%Q.
Proof.
  intros Hd. unfold get_averages. simpl.
  unfold truediv. rewrite Z.add_0_l.
  destruct (Z.eqb_spec d 0) as [| _]; [done |]. simpl.
  eexists; split; [reflexivity |].
  assert (~ (inject_Z d == 0)%Q).
  { unfold Qeq. simpl. lia. }
  field. done.
Qed.

Lemma whole_quarters_multiple (pitch : Z) (j : nat) :
  forall ret time, time = Z.of_nat (S j) * quarter_time ->
  whole_quarters pitch ret time = (ret ++ repeat (inject_Z pitch) (S j), 0).
Proof.
  induction j as [| j IH]; intros ret time Ht;
    rewrite whole_quarters_equation_1;
    destruct (Z_lt_dec (time - quarter_time) quarter_time) as [Hlt | Hge];
    unfold quarter_time in Ht, Hlt || unfold quarter_time in Ht, Hge;
    try lia; simpl.
  - f_equal. unfold quarter_time. lia.
  - rewrite (IH _ (time - quarter_time)) by (unfold quarter_time; lia).
    by rewrite <- app_assoc.
Qed.

(** C2. For every pitch [p <> 0] and every integer [k >= 1], the
    quantizer run on the single-event melody [[(p, k * 384)]] emits exactly
    [k] slot values, each equal to [p - 24]. *)
Theorem average_notes_single_note (p k : Z) :
  p <> 0 -> 1 <= k ->
  exists slots,
    average_notes [(p, k * quarter_time)] = Return slots /\
    length slots = Z.to_nat k /\
    Forall (fun v => v == inject_Z p - 24)%Q slots.
Proof.
  intros Hp Hk.
  set (d := k * quarter_time).
  assert (Hd : quarter_time <= d) by (unfold d, quarter_time; lia).
  destruct (get_averages_single p quarter_time) as (a & Ha & Haq); [done |].
  unfold average_notes. change (range (length [(p, d)])) with [0%nat].
  cbn [for_each]. unfold average_notes_body at 1.
  rewrite (item_Some [(p, d)] 0 (p, d)) by done.
  cbn [mbind outcome_bind fst snd q_time q_ret q_averages].
  rewrite Z.add_0_l.
  destruct (Z.eqb_spec p 0) as [| _]; [done |].
  destruct (Z.ltb_spec d quarter_time) as [| _]; [lia |].
  destruct (Z.eqb_spec d quarter_time) as [Heq | Hne].
  - rewrite Heq. simpl app. rewrite Ha.
    cbn [mbind outcome_bind]. change (quarter_time <=? 0) with false. cbn [map q_ret].
    exists [(a - 24)%Q]. split; [done | split].
    + unfold d, quarter_time in Heq. simpl. lia.
    + constructor; [by rewrite Haq | constructor].
  - cbn [mbind outcome_bind].
    destruct (Z.leb_spec quarter_time d) as [_ |]; [| lia].
    replace (d - (d - quarter_time)) with quarter_time by lia.
    simpl app. rewrite Ha. cbn [mbind outcome_bind].
    change (py_index [(p, quarter_time)] (Z.of_nat (length [(p, quarter_time)]) - 1))
      with (Return (p, quarter_time)).
    cbn [mbind outcome_bind snd].
    assert (Hk2 : 2 <= k) by (unfold d, quarter_time in Hne, Hd; lia).
    destruct (Z.leb_spec quarter_time (d - quarter_time)) as [_ |];
      [| unfold d, quarter_time in *; lia].
    rewrite (whole_quarters_multiple p (Z.to_nat (k - 2)))
      by (unfold d, quarter_time; lia).
    change (0 =? 0) with true. cbn [map q_ret].
    eexists. split; [reflexivity | split].
    + cbn [q_ret]. rewrite length_map, length_app, repeat_length. simpl. lia.
    + cbn [q_ret]. rewrite map_app. apply Forall_app. split.
      * constructor; [by rewrite Haq | constructor].
      * apply Forall_map, Forall_forall. intros x Hx.
        apply list_elem_of_In, repeat_spec in Hx. by rewrite Hx.
Qed.

Lemma average_notes_single_note_witness :
  exists slots,
    average_notes [(60, 3 * quarter_time)] = Return slots /\
    length slots = Z.to_nat 3 /\
    Forall (fun v => v == inject_Z 60 - 24)%Q slots.
Proof. apply (average_notes_single_note 60 3); lia. Defined.

(** C3 does not hold of [average_notes]: a gap advances [time], and when
    the gap alone fills the quarter the next note is split into a part of
    duration [0], whose average divides by the total duration [0].  Here a
    rest of one quarter is followed by a note of 100 ticks. *)
Theorem average_notes_divides_by_zero :
  average_notes [(0, 384); (60, 100)] = Raise ZeroDivisionError
  /\ get_averages [(60, 0)] = Raise ZeroDivisionError.
Proof. split; reflexivity. Qed.

(** ** Melody quantizer: what holds of gaps, and of melodies without gaps *)

(** The total duration of a buffer. *)
Lemma total_time_loop (l : list (Z * Z)) (acc : Z) :
  for_each l acc (fun total_time nt => Return (total_time + snd nt))
  = Return (acc + buffer_time l).
Proof.
  unfold buffer_time. revert acc. induction l as [| nt l IH]; intros acc; simpl.
  - by rewrite Z.add_0_r.
  - rewrite IH. f_equal. lia.
Qed.

(** [get_averages] raises only on a non-empty buffer of total duration 0. *)
Lemma get_averages_returns (l : list (Z * Z)) :
  buffer_time l <> 0 ->
  exists a, get_averages l = Return a.
Proof.
  intros Htotal. unfold get_averages.
  rewrite (for_each_range l 0 _ (fun total_time nt => Return (total_time + snd nt)))
    by (intros a i x Hx; by rewrite (item_Some l i x Hx)).
  rewrite total_time_loop, Z.add_0_l. cbn [mbind outcome_bind].
  apply for_each_returns. intros a j Hj%elem_of_seq.
  destruct (lookup_lt_is_Some_2 l j ltac:(lia)) as [nt Hnt].
  rewrite (item_Some l j nt Hnt). cbn [mbind outcome_bind].
  unfold truediv.
  destruct (Z.eqb_spec (buffer_time l) 0) as [| _]; [done |].
  by eexists.
Qed.

(** A gap only advances the time: it never enters the buffer. *)
Lemma average_notes_gap (original_melody : list (Z * Z)) (st : quantizer)
    (i : nat) (d : Z) :
  original_melody !! i = Some (0, d) ->
  average_notes_body original_melody st i
  = Return (Quantizer (q_ret st) (q_averages st) (q_time st + d)).
Proof.
  intros Hi. unfold average_notes_body. by rewrite (item_Some _ _ _ Hi).
Qed.

Lemma whole_quarters_time (pitch : Z) (ret : list Q) (time : Z) :
  quarter_time <= time ->
  0 <= (whole_quarters pitch ret time).2 < quarter_time.
Proof.
  funelim (whole_quarters pitch ret time); intros Htime.
  - simpl. unfold quarter_time in *. lia.
  - apply H. unfold quarter_time in *. lia.
Qed.

Lemma buffer_time_app (l : list (Z * Z)) (nt : Z * Z) :
  buffer_time (l ++ [nt]) = buffer_time l + snd nt.
Proof.
  unfold buffer_time. induction l as [| x l IH]; simpl; [lia |]. rewrite IH. lia.
Qed.

(** One sounding note of positive duration, from a good state: the
    iteration returns, in a good state. *)
Lemma average_notes_body_ok (original_melody : list (Z * Z)) (st : quantizer)
    (i : nat) (p d : Z) :
  quantizer_ok st ->
  original_melody !! i = Some (p, d) -> p <> 0 -> 0 < d ->
  exists st', average_notes_body original_melody st i = Return st' /\ quantizer_ok st'.
Proof.
  intros (Htime & Hsum & Hpos) Hi Hp Hd.
  unfold average_notes_body. rewrite (item_Some _ _ _ Hi).
  cbn [mbind outcome_bind fst snd].
  destruct (Z.eqb_spec p 0) as [| _]; [done |].
  set (time := q_time st + d).
  assert (Hq : quarter_time = 384) by done.
  destruct (Z.ltb_spec time quarter_time) as [Hlt | Hge].
  - (* the note stays inside the quarter *)
    destruct (Z.eqb_spec time quarter_time) as [| _]; [lia |].
    cbn [mbind outcome_bind].
    destruct (Z.leb_spec quarter_time time) as [| _]; [lia |].
    eexists. split; [reflexivity |]. unfold quantizer_ok. cbn [q_time q_averages].
    split; [unfold time in *; lia | split].
    + rewrite buffer_time_app. cbn [snd]. unfold time. lia.
    + apply Forall_app. split; [done |]. by repeat constructor.
  - destruct (Z.eqb_spec time quarter_time) as [Heq | Hne].
    + (* the note ends the quarter *)
      destruct (get_averages_returns (q_averages st ++ [(p, d)])) as [a Ha].
      { rewrite buffer_time_app. cbn [snd]. unfold time in *. lia. }
      rewrite Ha. cbn [mbind outcome_bind].
      change (quarter_time <=? 0) with false.
      eexists. split; [reflexivity |]. unfold quantizer_ok. cbn [q_time q_averages].
      split; [lia | split; [done | constructor]].
    + (* the note runs over the end of the quarter *)
      cbn [mbind outcome_bind].
      destruct (Z.leb_spec quarter_time time) as [_ |]; [| lia].
      set (part := d - (time - quarter_time)).
      assert (Hpart : part = quarter_time - q_time st) by (unfold part, time; lia).
      destruct (get_averages_returns (q_averages st ++ [(p, part)])) as [a Ha].
      { rewrite buffer_time_app. cbn [snd]. lia. }
      rewrite Ha. cbn [mbind outcome_bind].
      assert (Hlast : py_index (q_averages st ++ [(p, part)])
                        (Z.of_nat (length (q_averages st ++ [(p, part)])) - 1)
                      = Return (p, part)).
      { apply py_index_last. }
      rewrite Hlast. cbn [mbind outcome_bind snd].
      destruct (Z.leb_spec quarter_time (d - part)) as [Hwhole | Hpartial].
      * pose proof (whole_quarters_time p (q_ret st ++ [a]) (d - part) Hwhole) as Hrest.
        destruct (whole_quarters p (q_ret st ++ [a]) (d - part)) as [ret' time'].
        cbn [snd] in Hrest.
        eexists. split; [reflexivity |]. unfold quantizer_ok. cbn [q_time q_averages].
        split; [done |].
        destruct (Z.eqb_spec time' 0) as [-> | Hne0]; [by split; [| constructor] |].
        split; [unfold buffer_time; simpl; lia |].
        repeat constructor; [done | simpl; lia].
      * eexists. split; [reflexivity |]. unfold quantizer_ok. cbn [q_time q_averages].
        assert (0 < d - part < quarter_time) by lia.
        split; [lia |].
        destruct (Z.eqb_spec (d - part) 0) as [| _]; [lia |].
        split; [unfold buffer_time; simpl; lia |].
        repeat constructor; [done | simpl; lia].
Qed.

(** On a melody without gaps, made of notes of positive duration, the
    quantizer never divides by zero: it returns its slots. *)
Lemma average_notes_without_gaps (original_melody : list (Z * Z)) :
  Forall (fun nt => fst nt <> 0 /\ 0 < snd nt) original_melody ->
  exists slots, average_notes original_melody = Return slots.
Proof.
  intros Hall. unfold average_notes.
  destruct (for_each_invariant quantizer_ok (range (length original_melody))
              (Quantizer [] [] 0) (average_notes_body original_melody))
    as (st & Hrun & _).
  - unfold quantizer_ok, quarter_time. cbn. split; [lia | split; [done | constructor]].
  - intros st i Hi%elem_of_seq Hok.
    destruct (lookup_lt_is_Some_2 original_melody i ltac:(lia)) as [[p d] Hnt].
    pose proof (Forall_lookup_1 _ _ _ _ Hall Hnt) as [Hp Hd].
    by apply (average_notes_body_ok original_melody st i p d).
  - rewrite Hrun. by eexists.
Qed.

(** ** Fitness evaluator: melodic similarity *)

Lemma py_max_Qmax (a b : Q) : (py_max a b == Qmax a b)%Q.
Proof.
  unfold py_max, Qgtb.
  destruct (Qle_bool b a) eqn:E; simpl.
  - apply Qle_bool_iff in E. by rewrite Q.max_l.
  - assert (H : (a <= b)%Q).
    { apply Qnot_lt_le. intros Hlt. apply Qlt_le_weak, Qle_bool_iff in Hlt. congruence. }
    by rewrite Q.max_r.
Qed.

Lemma similarity_loop (individual : individual) (target : list Q) (n : nat) :
  (n <= Nat.min (length individual) (length target))%nat ->
  exists s,
    for_each (range n) 0%Q
      (fun score i =>
         c ← item individual i;
         let '(tonic, mediant, dominant) := c in
         t ← item target i;
         let diff_ton := Qabs (t - inject_Z tonic) in
         let diff_med := Qabs (t - inject_Z mediant) in
         let diff_dom := Qabs (t - inject_Z dominant) in
         let diff1 := py_max (10 - diff_ton) 0 in
         let diff2 := py_max (10 - diff_med) 0 in
         let diff3 := py_max (10 - diff_dom) 0 in
         let diff := (diff2 * 10 + diff1 * 5 + diff3 * 5)%Q in
         Return (score + diff)%Q) = Return s /\
    (s == sum_upto n
            (fun i => slot_similarity (nth i target 0%Q) (nth i individual (0, 0, 0)%Z)))%Q.
Proof.
  induction n as [| n IH]; intros Hn.
  - exists 0%Q. split; reflexivity.
  - destruct IH as (s & Hs & Heq); [lia |].
    unfold range in *. rewrite seq_S, for_each_app, Hs. simpl.
    rewrite (item_Some individual n (nth n individual (0, 0, 0)))
      by (apply lookup_nth; lia).
    destruct (nth n individual (0, 0, 0)) as [[tonic mediant] dominant]. simpl.
    rewrite (item_Some target n (nth n target 0%Q)) by (apply lookup_nth; lia).
    simpl. eexists. split; [reflexivity |].
    unfold slot_similarity, capped_proximity.
    rewrite !py_max_Qmax, Heq. reflexivity.
Qed.

Lemma similarity_returns (individual : individual) (target : list Q) :
  exists s,
    similarity_to_original_melody individual target = Return s /\
    (s == similarity_sum individual target)%Q.
Proof. apply (similarity_loop individual target). lia. Qed.


(** ** Fitness evaluator: scale membership *)

Lemma note_to_midi_number_octave_0 (name : string) :
  note_to_midi_number name 0 = Return (pitch_class_of name).
Proof. reflexivity. Qed.

Lemma triad_loop_in_scale (scale : list string) (c : chord) (score : Z) :
  length scale = 7%nat ->
  let '(t, m, d) := c in
  triad_loop (t mod 12) (m mod 12) (d mod 12) scale (range (length scale)) score false
  = Return (if in_scale scale c then (score + 100, true) else (score, false)).
Proof.
  intros Hlen.
  destruct scale as [| s0 [| s1 [| s2 [| s3 [| s4 [| s5 [| s6 [| ? ?]]]]]]]];
    try discriminate Hlen.
  destruct c as [[t m] d].
  unfold in_scale, diatonic_triad, range.
  cbn [length seq existsb triad_loop Nat.add Nat.modulo Nat.divmod fst snd Nat.sub nth].
  rewrite !item_lookup. cbn [lookup list_lookup].
  cbn [mbind outcome_bind]. rewrite !note_to_midi_number_octave_0.
  cbn [mbind outcome_bind].
  rewrite !(Z.eqb_sym (pitch_class_of _) (_ mod 12)).
  repeat match goal with
         | |- context [(?a =? ?b) && ?c && ?e] =>
             destruct ((a =? b) && c && e); cbn [orb]; try reflexivity
         end.
Qed.

Lemma chord_exists_loop (scale : list string) (individual : individual) :
  length scale = 7%nat ->
  forall score,
    for_each individual score
      (fun score c =>
         let '(t, m, d) := c in
         let tonic := t mod 12 in
         let mediant := m mod 12 in
         let dominant := d mod 12 in
         '(score, possible) ←
           triad_loop tonic mediant dominant scale (range (length scale)) score false;
         Return (if possible : bool then score else score - 100))
    = Return (score + scale_membership individual scale).
Proof.
  intros Hlen. induction individual as [| c ind IH]; intros score; simpl.
  - by rewrite Z.add_0_r.
  - pose proof (triad_loop_in_scale scale c score Hlen) as Hc.
    destruct c as [[t m] d]. cbv zeta. rewrite Hc.
    destruct (in_scale scale (t, m, d)); cbn [mbind outcome_bind];
      rewrite IH; f_equal; lia.
Qed.

Lemma chord_exists_total (individual : individual) (scale : list string) :
  length scale = 7%nat ->
  chord_exists individual scale = Return (scale_membership individual scale).
Proof.
  intros Hlen. unfold chord_exists.
  rewrite (for_each_items individual 0
             (fun score c =>
                let '(t, m, d) := c in
                let tonic := t mod 12 in
                let mediant := m mod 12 in
                let dominant := d mod 12 in
                '(score, possible) ←
                  triad_loop tonic mediant dominant scale
                    (range (length scale)) score false;
                Return (if possible : bool then score else score - 100))).
  by rewrite chord_exists_loop.
Qed.

Lemma pitch_class_of_11 (name : string) : pitch_class_of name = 11 -> name = "B"%string.
Proof.
  unfold pitch_class_of, note_to_midi_number, notes. cbn [note_number_loop].
  repeat match goal with
         | |- context [String.eqb name ?s] =>
             destruct (String.eqb_spec name s) as [-> | _]; [simpl; try lia; done |]
         end.
  simpl. lia.
Qed.

Lemma not_both_B (a b : string) :
  a <> b -> (11 =? pitch_class_of a) && (11 =? pitch_class_of b) = false.
Proof.
  intros Hne.
  destruct (Z.eqb_spec 11 (pitch_class_of a)) as [Ha | _]; [| done].
  destruct (Z.eqb_spec 11 (pitch_class_of b)) as [Hb | _]; [| done].
  symmetry in Ha, Hb. apply pitch_class_of_11 in Ha, Hb. congruence.
Qed.

Lemma rest_not_in_scale (scale : list string) :
  length scale = 7%nat -> NoDup scale -> in_scale scale rest = false.
Proof.
  intros Hlen Hnd.
  destruct scale as [| s0 [| s1 [| s2 [| s3 [| s4 [| s5 [| s6 [| ? ?]]]]]]]];
    try discriminate Hlen.
  assert (Hdiff : forall i j a b,
             [s0; s1; s2; s3; s4; s5; s6] !! i = Some a ->
             [s0; s1; s2; s3; s4; s5; s6] !! j = Some b -> i <> j -> a <> b).
  { intros i j a b Hi Hj Hij ->. apply Hij.
    by apply (proj1 (NoDup_alt _) Hnd i j b). }
  unfold in_scale, rest, diatonic_triad.
  cbn [seq existsb Nat.add Nat.modulo Nat.divmod fst snd Nat.sub nth].
  change (-1 mod 12) with 11.
  rewrite (not_both_B s0 s2) by (by apply (Hdiff 0 2)%nat).
  rewrite (not_both_B s1 s3) by (by apply (Hdiff 1 3)%nat).
  rewrite (not_both_B s2 s4) by (by apply (Hdiff 2 4)%nat).
  rewrite (not_both_B s3 s5) by (by apply (Hdiff 3 5)%nat).
  rewrite (not_both_B s4 s6) by (by apply (Hdiff 4 6)%nat).
  rewrite (not_both_B s5 s0) by (by apply (Hdiff 5 0)%nat).
  rewrite (not_both_B s6 s1) by (by apply (Hdiff 6 1)%nat).
  reflexivity.
Qed.

(** Every scale of the two tables has seven pairwise distinct names. *)
Lemma table_scales_distinct :
  Forall (fun key => length key.2 = 7%nat /\ NoDup key.2) (major_keys ++ minor_keys).
Proof.
  repeat (constructor;
          [split; [reflexivity | apply (bool_decide_unpack _); vm_compute; exact I] |]).
  constructor.
Qed.

(** C7. For every individual and scale of seven (distinct) note names,
    [chord_exists] adds [+100] for each chord whose three tones reduced mod
    12 are the pitch classes of one of the cyclic diatonic triads (degrees
    [j], [j + 2 mod 7], [j + 4 mod 7], each name converted by the pitch
    codec at octave 0) and [-100] for each other chord.  For C major the
    chord [(0, 4, 7)] scores [+100] and [(0, 4, 6)] scores [-100], and a
    rest [(-1, -1, -1)] matches no triad: every rest contributes [-100]. *)
Theorem chord_exists_scale_membership (individual : individual) (scale : list string) :
  length scale = 7%nat ->
  chord_exists individual scale = Return (scale_membership individual scale)
  /\ chord_exists [(0, 4, 7)] c_major = Return 100
  /\ chord_exists [(0, 4, 6)] c_major = Return (-100)
  /\ (NoDup scale ->
      in_scale scale rest = false /\
      chord_exists (rest :: individual) scale
      = Return (-100 + scale_membership individual scale)).
Proof.
  intros Hlen.
  pose proof (fun ind => chord_exists_total ind scale Hlen) as Hall.
  split; [apply Hall | split; [reflexivity | split; [reflexivity |]]].
  intros Hnd. pose proof (rest_not_in_scale scale Hlen Hnd) as Hrest.
  split; [done |].
  rewrite Hall. cbn [scale_membership fold_right]. by rewrite Hrest.
Qed.

Lemma chord_exists_scale_membership_witness :
  chord_exists [(2, 5, 9); rest] c_major
  = Return (scale_membership [(2, 5, 9); rest] c_major)
  /\ in_scale c_major rest = false.
Proof.
  destruct (chord_exists_scale_membership [(2, 5, 9); rest] c_major)
    as (Hall & _ & _ & Hrest); [reflexivity |].
  split; [exact Hall |].
  apply Hrest. apply (bool_decide_unpack _). vm_compute. exact I.
Defined.

(** ** Fitness evaluator: the fitness is defined on every individual *)

Lemma tonic_at_returns (individual : individual) (k : Z) :
  0 <= k < Z.of_nat (length individual) ->
  exists v, tonic_at individual k = Return v.
Proof.
  intros Hk. unfold tonic_at, py_index.
  destruct (Z.ltb_spec k 0) as [| _]; [lia |].
  destruct (Z.ltb_spec k 0) as [| _]; [lia |].
  destruct (lookup_lt_is_Some_2 individual (Z.to_nat k)) as [c Hc]; [lia |].
  rewrite Hc. simpl. by eexists.
Qed.

Lemma redundant_chords_returns (individual : individual) :
  exists v, redundant_chords individual = Return v.
Proof.
  unfold redundant_chords. apply for_each_returns.
  intros score i Hi. apply elem_of_seq in Hi.
  destruct (tonic_at_returns individual (Z.of_nat i)) as [t3 H3]; [lia |].
  unfold range. cbn [seq for_each].
  destruct (Nat.leb_spec 2 i) as [Hi2 | Hi2].
  - destruct (tonic_at_returns individual (Z.of_nat i - 2)) as [t1 H1]; [lia |].
    destruct (tonic_at_returns individual (Z.of_nat i - 1)) as [t2 H2]; [lia |].
    rewrite H1, H2, H3. cbn [mbind outcome_bind].
    destruct (Nat.leb_spec 1 i) as [_ |]; [| lia].
    cbn [mbind outcome_bind]. by eexists.
  - cbn [mbind outcome_bind].
    destruct (Nat.leb_spec 1 i) as [Hi1 | Hi1]; [| by eexists].
    destruct (tonic_at_returns individual (Z.of_nat i - 1)) as [t2 H2]; [lia |].
    rewrite H2, H3. cbn [mbind outcome_bind]. by eexists.
Qed.

Lemma individual_fitness_returns (individual : individual) (target : list Q)
    (possible_chords : list string) :
  length possible_chords = 7%nat ->
  individual_fitness individual target possible_chords
  = Return (fitness_value individual target possible_chords).
Proof.
  intros Hlen. unfold fitness_value, individual_fitness.
  destruct (similarity_returns individual target) as (s1 & -> & _).
  rewrite (chord_exists_total individual possible_chords Hlen).
  destruct (redundant_chords_returns individual) as [s3 ->].
  reflexivity.
Qed.

(** ** Result extraction *)








(** ** Tournament selection *)

Lemma list_pair_ind {A : Type} (P : list A -> Prop) :
  P [] -> (forall a, P [a]) -> (forall a b l, P l -> P (a :: b :: l)) ->
  forall l, P l.
Proof.
  intros Hnil Hone Hpair l.
  assert (H : P l /\ forall a, P (a :: l)).
  { induction l as [| b l [IH1 IH2]]; [by split |].
    split; [apply IH2 | intros a; by apply Hpair]. }
  apply H.
Qed.




(** The loop of [selection] from an even position of the bracket on. *)
Lemma selection_loop (target : list Q) (possible_chords : list string)
    (suf : list individual) :
  length possible_chords = 7%nat ->
  Nat.Even (length suf) ->
  forall pre tournament_winners,
    Nat.Even (length pre) ->
    for_each (seq (length pre) (length suf)) tournament_winners
      (fun tournament_winners contestantID =>
         if negb (contestantID mod 2 =? 0)%nat then Return tournament_winners
         else
           a ← item (pre ++ suf) contestantID;
           fa ← individual_fitness a target possible_chords;
           b ← item (pre ++ suf) (contestantID + 1);
           fb ← individual_fitness b target possible_chords;
           if Qgtb fa fb then
             w ← item (pre ++ suf) contestantID;
             Return (tournament_winners ++ [w])
           else
             w ← item (pre ++ suf) (contestantID + 1);
             Return (tournament_winners ++ [w]))
    = Return (tournament_winners ++ tournament target possible_chords suf).
Proof.
  intros Hlen.
  induction suf as [| a | a b suf IH] using list_pair_ind;
    intros Hsuf pre winners Hpre.
  - simpl. by rewrite app_nil_r.
  - destruct Hsuf as [k Hk]. simpl in Hk. lia.
  - assert (Hsuf' : Nat.Even (length suf)).
    { destruct Hsuf as [k Hk]. exists (k - 1)%nat. simpl in Hk. lia. }
    destruct Hpre as [k Hk].
    cbn [length seq for_each].
    assert (H0 : (length pre mod 2 =? 0)%nat = true).
    { rewrite Hk, Nat.mul_comm, Nat.Div0.mod_mul. done. }
    assert (H1 : (S (length pre) mod 2 =? 0)%nat = false).
    { rewrite Hk. replace (S (2 * k)) with (1 + k * 2)%nat by lia.
      rewrite Nat.Div0.mod_add. done. }
    rewrite H0, H1. cbn [negb].
    rewrite (item_Some (pre ++ a :: b :: suf) (length pre) a)
      by (by rewrite list_lookup_middle).
    assert (Hb : (pre ++ a :: b :: suf) !! (length pre + 1)%nat = Some b).
    { rewrite lookup_app_r by lia.
      by replace (length pre + 1 - length pre)%nat with 1%nat by lia. }
    rewrite (item_Some _ _ _ Hb).
    cbn [mbind outcome_bind].
    rewrite !individual_fitness_returns by done.
    cbn [mbind outcome_bind].
    specialize (IH Hsuf' (pre ++ [a; b])
                  (winners ++ [survivor target possible_chords a b])).
    rewrite length_app, <- !app_assoc in IH. cbn [length app] in IH.
    replace (length pre + 2)%nat with (S (S (length pre))) in IH by lia.
    unfold survivor at 1 in IH.
    destruct (Qgtb (fitness_value a target possible_chords)
                   (fitness_value b target possible_chords));
      cbn [mbind outcome_bind]; rewrite IH; try done;
      exists (k + 1)%nat; lia.
Qed.



(** ** The store *)

Lemma preserves_refl h : preserves h h.
Proof. by intros l o. Qed.

Lemma preserves_trans h1 h2 h3 : preserves h1 h2 -> preserves h2 h3 -> preserves h1 h3.
Proof. intros H12 H23 l o Hl. by apply H23, H12. Qed.

Lemma preserves_alloc h o : preserves h (h ++ [o]).
Proof. intros l o' Hl. by apply lookup_app_l_Some. Qed.

(** A write outside [h] preserves [h]. *)
Lemma preserves_insert h h' l o :
  preserves h h' -> (length h <= l)%nat -> preserves h (<[l := o]> h').
Proof.
  intros Hp Hl l' o' Hl'. rewrite list_lookup_insert_ne; [by apply Hp |].
  apply lookup_lt_Some in Hl'. lia.
Qed.

Lemma row_at_Some h l c : row_at h l = Some c <-> h !! l = Some (Row c).
Proof.
  unfold row_at. destruct (h !! l) as [[c' | items] |]; split; congruence.
Qed.

Lemma list_at_Some h l items : list_at h l = Some items <-> h !! l = Some (PyList items).
Proof.
  unfold list_at. destruct (h !! l) as [[c' | items'] |]; split; congruence.
Qed.

Lemma rows_preserved h h' items (v : individual) :
  preserves h h' -> mapM (row_at h) items = Some v -> mapM (row_at h') items = Some v.
Proof.
  intros Hp. rewrite !mapM_Some. intros HF.
  eapply Forall2_impl; [exact HF |].
  intros l c. rewrite !row_at_Some. apply Hp.
Qed.

(** An individual that [h] holds keeps its value in every store that
    preserves [h]. *)
Lemma individual_at_preserved h h' l (v : individual) :
  preserves h h' -> individual_at h l = Some v -> individual_at h' l = Some v.
Proof.
  intros Hp. unfold individual_at.
  destruct (list_at h l) as [items |] eqn:Hl; [| done]. simpl.
  apply list_at_Some, Hp, list_at_Some in Hl. rewrite Hl. simpl.
  by apply rows_preserved.
Qed.

Lemma individual_at_Some (h : store) l (v : individual) :
  individual_at h l = Some v <->
  exists items, list_at h l = Some items /\ Forall2 (fun r c => row_at h r = Some c) items v.
Proof.
  unfold individual_at. destruct (list_at h l) as [items |]; simpl.
  - rewrite mapM_Some. split; [by exists items | by intros (? & [= <-] & ?)].
  - split; [done | by intros (? & ? & ?)].
Qed.

Section StoreProofs.
Context (R : random_source).

Lemma run_bind {A B : Type} (c : prog R A) (k : A -> prog R B) s a s' :
  c s = Return (a, s') -> (c ≫= k) s = k a s'.
Proof. intros H. unfold mbind, prog_bind, bnd. by rewrite H. Qed.

Lemma run_for_each_app {A B : Type} (xs ys : list B) (acc : A) body s :
  for_each_prog R (xs ++ ys) acc body s
  = bnd R (for_each_prog R xs acc body) (fun acc' => for_each_prog R ys acc' body) s.
Proof.
  revert acc s. induction xs as [| x xs IH]; intros acc s; simpl.
  - by unfold bnd, ret.
  - unfold bnd. destruct (body acc x s) as [[a s'] | e]; [| done].
    rewrite IH. by unfold bnd.
Qed.

Lemma run_load_list h g l items :
  list_at h l = Some items -> load_list R l (h, g) = Return (items, (h, g)).
Proof. intros H%list_at_Some. unfold load_list. by rewrite H. Qed.

Lemma run_load_row h g l c :
  row_at h l = Some c -> load_row R l (h, g) = Return (c, (h, g)).
Proof. intros H%row_at_Some. unfold load_row. by rewrite H. Qed.

Lemma run_list_len h g l items :
  list_at h l = Some items -> list_len R l (h, g) = Return (length items, (h, g)).
Proof. intros H. unfold list_len. by rewrite (run_bind _ _ _ _ _ (run_load_list h g l items H)). Qed.

Lemma run_list_get h g l items i x :
  list_at h l = Some items -> items !! i = Some x ->
  list_get R l i (h, g) = Return (x, (h, g)).
Proof.
  intros H Hi. unfold list_get.
  rewrite (run_bind _ _ _ _ _ (run_load_list h g l items H)).
  unfold lift. by rewrite (item_Some _ _ _ Hi).
Qed.

Lemma run_list_append h g l items x :
  list_at h l = Some items ->
  list_append R l x (h, g) = Return (tt, (<[l := PyList (items ++ [x])]> h, g)).
Proof.
  intros H. unfold list_append.
  by rewrite (run_bind _ _ _ _ _ (run_load_list h g l items H)).
Qed.

Lemma run_list_set h g l items i x :
  list_at h l = Some items -> (i < length items)%nat ->
  list_set R l i x (h, g) = Return (tt, (<[l := PyList (<[i := x]> items)]> h, g)).
Proof.
  intros H Hi. unfold list_set.
  rewrite (run_bind _ _ _ _ _ (run_load_list h g l items H)).
  by destruct (Nat.ltb_spec i (length items)); [| lia].
Qed.

Lemma run_draw_uniform h g a b :
  draw_uniform R a b (h, g)
  = Return ((uniform R a b g).1, (h, (uniform R a b g).2)).
Proof. unfold draw_uniform. by destruct (uniform R a b g). Qed.

Lemma run_draw_randint h g a b :
  draw_randint R a b (h, g)
  = Return ((randint R a b g).1, (h, (randint R a b g).2)).
Proof. unfold draw_randint. by destruct (randint R a b g). Qed.

(** Drawing a chord never fails and leaves the store alone. *)
Lemma run_random_chord h g :
  exists c g', random_chord R (h, g) = Return (c, (h, g')).
Proof.
  unfold random_chord.
  repeat (erewrite run_bind by apply run_draw_randint).
  unfold choice.
  match goal with |- context [randbelow R ?n ?g0] =>
    pose proof (randbelow_lt R n g0) as Hlt; destruct (randbelow R n g0) as [k g'] end.
  simpl in Hlt. specialize (Hlt ltac:(lia)).
  match goal with |- context [item ?l k] =>
    destruct (lookup_lt_is_Some_2 l k Hlt) as [c Hc]; rewrite (item_Some l k c Hc) end.
  by eexists _, _.
Qed.

(** *** The two children of a pair *)

Lemma children_lookup_1 (h : store) l1 l2 :
  list_at (h ++ [PyList l1; PyList l2]) (length h) = Some l1.
Proof. apply list_at_Some. by rewrite list_lookup_middle. Qed.

Lemma children_lookup_2 (h : store) l1 l2 :
  list_at (h ++ [PyList l1; PyList l2]) (S (length h)) = Some l2.
Proof.
  apply list_at_Some. rewrite lookup_app_r by lia.
  by replace (S (length h) - length h)%nat with 1%nat by lia.
Qed.

Lemma children_insert_1 (h : store) l1 l2 l1' :
  <[length h := PyList l1']> (h ++ [PyList l1; PyList l2]) = h ++ [PyList l1'; PyList l2].
Proof.
  rewrite insert_app_r_alt by lia. by rewrite Nat.sub_diag.
Qed.

Lemma children_insert_2 (h : store) l1 l2 l2' :
  <[S (length h) := PyList l2']> (h ++ [PyList l1; PyList l2]) = h ++ [PyList l1; PyList l2'].
Proof.
  rewrite insert_app_r_alt by lia.
  by replace (S (length h) - length h)%nat with 1%nat by lia.
Qed.

Lemma list_at_app (h ext : store) l items :
  list_at h l = Some items -> list_at (h ++ ext) l = Some items.
Proof. rewrite !list_at_Some. apply lookup_app_l_Some. Qed.

(** After [n] rounds of the gene loop the children hold, at each index
    below [n], the two genes of the parents at that index, one each. *)
Lemma new_children_loop (h : store) (parent1 parent2 : loc) (items1 items2 : list loc)
    (n : nat) :
  list_at h parent1 = Some items1 ->
  list_at h parent2 = Some items2 ->
  (n <= length items1)%nat -> (n <= length items2)%nat ->
  forall g,
  exists l1 l2 g',
    for_each_prog R (range n) tt
      (fun _ i =>
         probability_of_crossover ← draw_uniform R 0 1;
         if Qle_bool (1 # 2) probability_of_crossover then
           g1 ← list_get R parent1 i;
           _ ← list_append R (length h) g1;
           g2 ← list_get R parent2 i;
           list_append R (S (length h)) g2
         else
           g2 ← list_get R parent2 i;
           _ ← list_append R (length h) g2;
           g1 ← list_get R parent1 i;
           list_append R (S (length h)) g1)
      (h ++ [PyList []; PyList []], g)
    = Return (tt, (h ++ [PyList l1; PyList l2], g')) /\
    length l1 = n /\ length l2 = n /\
    forall i x y,
      items1 !! i = Some x -> items2 !! i = Some y -> (i < n)%nat ->
      (l1 !! i = Some x /\ l2 !! i = Some y) \/ (l1 !! i = Some y /\ l2 !! i = Some x).
Proof.
  intros Hp1 Hp2. induction n as [| n IH]; intros Hn1 Hn2 g.
  - exists [], [], g. repeat split; try done. intros; lia.
  - destruct (IH ltac:(lia) ltac:(lia) g) as (l1 & l2 & g1 & Hrun & Hl1 & Hl2 & Hgenes).
    destruct (lookup_lt_is_Some_2 items1 n ltac:(lia)) as [x Hx].
    destruct (lookup_lt_is_Some_2 items2 n ltac:(lia)) as [y Hy].
    unfold range in *. rewrite seq_S, run_for_each_app. unfold bnd at 1.
    rewrite Hrun. cbn [for_each_prog Nat.add]. unfold bnd at 1.
    rewrite (run_bind _ _ _ _ _ (run_draw_uniform _ _ _ _)).
    set (st := h ++ [PyList l1; PyList l2]).
    pose proof (list_at_app h [PyList l1; PyList l2] _ _ Hp1) as Hp1'.
    pose proof (list_at_app h [PyList l1; PyList l2] _ _ Hp2) as Hp2'.
    fold st in Hp1', Hp2'.
    destruct (Qle_bool (1 # 2) (uniform R 0 1 g1).1).
    + rewrite (run_bind _ _ _ _ _ (run_list_get _ _ _ _ _ _ Hp1' Hx)).
      rewrite (run_bind _ _ _ _ _ (run_list_append _ _ _ _ x (children_lookup_1 h l1 l2))).
      fold st. unfold st at 1. rewrite children_insert_1.
      rewrite (run_bind _ _ _ _ _
                 (run_list_get _ _ _ _ _ _ (list_at_app h _ _ _ Hp2) Hy)).
      rewrite (run_list_append _ _ _ _ y (children_lookup_2 h _ l2)).
      rewrite children_insert_2. unfold ret.
      exists (l1 ++ [x]), (l2 ++ [y]), (uniform R 0 1 g1).2.
      repeat split; [by rewrite length_app, Hl1, Nat.add_1_r
                    | by rewrite length_app, Hl2, Nat.add_1_r |].
      intros i x' y' Hx' Hy' Hi.
      destruct (decide (i = n)) as [-> | Hne].
      * left. rewrite Hx in Hx'. rewrite Hy in Hy'.
        injection Hx' as <-. injection Hy' as <-.
        split; [rewrite <- Hl1 | rewrite <- Hl2]; by rewrite list_lookup_middle.
      * destruct (Hgenes i x' y' Hx' Hy' ltac:(lia)) as [[H1 H2] | [H1 H2]];
          [left | right]; split; by apply lookup_app_l_Some.
    + rewrite (run_bind _ _ _ _ _ (run_list_get _ _ _ _ _ _ Hp2' Hy)).
      rewrite (run_bind _ _ _ _ _ (run_list_append _ _ _ _ y (children_lookup_1 h l1 l2))).
      fold st. unfold st at 1. rewrite children_insert_1.
      rewrite (run_bind _ _ _ _ _
                 (run_list_get _ _ _ _ _ _ (list_at_app h _ _ _ Hp1) Hx)).
      rewrite (run_list_append _ _ _ _ x (children_lookup_2 h _ l2)).
      rewrite children_insert_2. unfold ret.
      exists (l1 ++ [y]), (l2 ++ [x]), (uniform R 0 1 g1).2.
      repeat split; [by rewrite length_app, Hl1, Nat.add_1_r
                    | by rewrite length_app, Hl2, Nat.add_1_r |].
      intros i x' y' Hx' Hy' Hi.
      destruct (decide (i = n)) as [-> | Hne].
      * right. rewrite Hx in Hx'. rewrite Hy in Hy'.
        injection Hx' as <-. injection Hy' as <-.
        split; [rewrite <- Hl1 | rewrite <- Hl2]; by rewrite list_lookup_middle.
      * destruct (Hgenes i x' y' Hx' Hy' ltac:(lia)) as [[H1 H2] | [H1 H2]];
          [left | right]; split; by apply lookup_app_l_Some.
Qed.

(** The children, as [new_children] builds them: two new lists holding, at
    every index, the parents' two genes at that index, one each; nothing
    that was in the store changes. *)
Lemma run_new_children (h : store) g (parent1 parent2 : loc) (v1 v2 : individual) :
  individual_at h parent1 = Some v1 ->
  individual_at h parent2 = Some v2 ->
  length v1 = length v2 ->
  exists h' g' (w1 w2 : individual),
    new_children R parent1 parent2 (h, g)
    = Return ((length h, S (length h)), (h', g')) /\
    preserves h h' /\ length h' = S (S (length h)) /\
    individual_at h' (length h) = Some w1 /\
    individual_at h' (S (length h)) = Some w2 /\
    length w1 = length v1 /\ length w2 = length v1 /\
    forall i x y,
      v1 !! i = Some x -> v2 !! i = Some y ->
      (w1 !! i = Some x /\ w2 !! i = Some y) \/ (w1 !! i = Some y /\ w2 !! i = Some x).
Proof.
  intros (items1 & Hp1 & Hrows1)%individual_at_Some
         (items2 & Hp2 & Hrows2)%individual_at_Some Hlen.
  pose proof (Forall2_length _ _ _ Hrows1) as Hlen1.
  pose proof (Forall2_length _ _ _ Hrows2) as Hlen2.
  destruct (new_children_loop h parent1 parent2 items1 items2 (length items1)
              Hp1 Hp2 ltac:(lia) ltac:(lia) g)
    as (l1 & l2 & g' & Hrun & Hl1 & Hl2 & Hgenes).
  set (h' := h ++ [PyList l1; PyList l2]).
  assert (Hpres : preserves h h') by (intros l o; apply lookup_app_l_Some).
  (* every gene of a child is a row of the store *)
  assert (Hrow : forall (l : list loc),
             length l = length items1 ->
             (forall i r, l !! i = Some r ->
                          items1 !! i = Some r \/ items2 !! i = Some r) ->
             is_Some (mapM (row_at h') l)).
  { intros l Hl Hin. apply mapM_is_Some, Forall_lookup. intros i r Hr.
    destruct (Hin i r Hr) as [Hi | Hi].
    - destruct (Forall2_lookup_l _ _ _ _ _ Hrows1 Hi) as (c & _ & Hc).
      exists c. by apply row_at_Some, Hpres, row_at_Some.
    - destruct (Forall2_lookup_l _ _ _ _ _ Hrows2 Hi) as (c & _ & Hc).
      exists c. by apply row_at_Some, Hpres, row_at_Some. }
  assert (Hfrom : forall i,
             (i < length items1)%nat ->
             exists x y, items1 !! i = Some x /\ items2 !! i = Some y /\
               ((l1 !! i = Some x /\ l2 !! i = Some y) \/
                (l1 !! i = Some y /\ l2 !! i = Some x))).
  { intros i Hi.
    destruct (lookup_lt_is_Some_2 items1 i Hi) as [x Hx].
    destruct (lookup_lt_is_Some_2 items2 i ltac:(lia)) as [y Hy].
    exists x, y. repeat split; [done | done |]. by apply Hgenes. }
  destruct (Hrow l1 Hl1) as [w1 Hw1].
  { intros i r Hr. destruct (Hfrom i) as (x & y & Hx & Hy & [[H1 _] | [H1 _]]);
      [apply lookup_lt_Some in Hr; lia | left | right]; congruence. }
  destruct (Hrow l2 Hl2) as [w2 Hw2].
  { intros i r Hr. destruct (Hfrom i) as (x & y & Hx & Hy & [[_ H2] | [_ H2]]);
      [apply lookup_lt_Some in Hr; lia | right | left]; congruence. }
  exists h', g', w1, w2.
  assert (Hc1 : individual_at h' (length h) = Some w1).
  { apply individual_at_Some. exists l1. split; [apply children_lookup_1 |].
    by apply mapM_Some. }
  assert (Hc2 : individual_at h' (S (length h)) = Some w2).
  { apply individual_at_Some. exists l2. split; [apply children_lookup_2 |].
    by apply mapM_Some. }
  apply mapM_Some in Hw1, Hw2.
  pose proof (Forall2_length _ _ _ Hw1) as Hlw1.
  pose proof (Forall2_length _ _ _ Hw2) as Hlw2.
  split; [| repeat split; try done; try lia].
  - unfold new_children.
    rewrite (run_bind _ _ (h, g) (length h) (h ++ [PyList []], g)) by done.
    rewrite (run_bind _ _ (h ++ [PyList []], g) (S (length h))
               (h ++ [PyList []; PyList []], g)).
    2:{ unfold alloc. rewrite length_app, Nat.add_1_r, <- app_assoc. done. }
    rewrite (run_bind _ _ _ _ _
               (run_list_len _ _ _ _ (list_at_app h [PyList []; PyList []] _ _ Hp1))).
    rewrite (run_bind _ _ _ _ _ Hrun). done.
  - unfold h'. rewrite length_app. simpl. lia.
  - intros i x y Hx Hy.
    destruct (Forall2_lookup_r _ _ _ _ _ Hrows1 Hx) as (rx & Hrx & Hvx).
    destruct (Forall2_lookup_r _ _ _ _ _ Hrows2 Hy) as (ry & Hry & Hvy).
    apply row_at_Some, Hpres, row_at_Some in Hvx, Hvy.
    assert (Hval : forall (l : list loc) (w : individual) r c,
               Forall2 (fun r c => row_at h' r = Some c) l w ->
               l !! i = Some r -> row_at h' r = Some c -> w !! i = Some c).
    { intros l w r c HF Hr Hc.
      destruct (Forall2_lookup_l _ _ _ _ _ HF Hr) as (c' & Hc' & Hrc). congruence. }
    destruct (Hgenes i rx ry Hrx Hry) as [[H1 H2] | [H1 H2]];
      [by apply lookup_lt_Some in Hrx | left | right]; split; by eapply Hval.
Qed.

(** *** Mutation *)

Lemma mutation_loop (h : store) (individual : loc) (n : nat) (chords : list nat) :
  Forall (fun i => i < n)%nat chords ->
  forall h0 g,
    mutated h individual n h0 ->
    exists h' g',
      for_each_prog R chords tt
        (fun _ chord =>
           probability_of_mutation ← draw_uniform R 0 1;
           if Qgtb (5 # 100) probability_of_mutation then
             c ← random_chord R;
             r ← alloc R (Row c);
             list_set R individual chord r
           else ret R tt)
        (h0, g)
      = Return (tt, (h', g')) /\
      mutated h individual n h'.
Proof.
  induction 1 as [| i chords Hi _ IH]; intros h0 g Hinv.
  - exists h0, g. by split.
  - cbn [for_each_prog]. unfold bnd at 1.
    rewrite (run_bind _ _ _ _ _ (run_draw_uniform _ _ _ _)).
    destruct (Qgtb (5 # 100) (uniform R 0 1 g).1).
    + destruct (run_random_chord h0 (uniform R 0 1 g).2) as (c & g2 & Hc).
      rewrite (run_bind _ _ _ _ _ Hc).
      rewrite (run_bind _ _ (h0, g2) (length h0) (h0 ++ [Row c], g2)) by done.
      destruct Hinv as (Hkeep & items & Hitems & Hlen).
      rewrite (run_list_set _ _ _ _ _ _ (list_at_app h0 [Row c] _ _ Hitems))
        by lia.
      apply IH. split.
      * intros l o Hl Ho. rewrite list_lookup_insert_ne by done.
        by apply lookup_app_l_Some, Hkeep.
      * exists (<[i := length h0]> items). split; [| by rewrite length_insert].
        apply list_at_Some. apply list_lookup_insert_eq.
        apply list_at_Some, lookup_lt_Some in Hitems. rewrite length_app. lia.
    + unfold ret at 1. by apply IH.
Qed.

Lemma run_mutation (h : store) g (individual : loc) (items : list loc) :
  list_at h individual = Some items ->
  exists h' g',
    mutation R individual (h, g) = Return (individual, (h', g')) /\
    mutated h individual (length items) h'.
Proof.
  intros Hitems. unfold mutation.
  rewrite (run_bind _ _ _ _ _ (run_list_len _ _ _ _ Hitems)).
  destruct (mutation_loop h individual (length items) (range (length items)))
    with (h0 := h) (g := g) as (h' & g' & Hrun & Hmut).
  { apply Forall_forall. intros i Hi%elem_of_seq. lia. }
  { split; [done | by exists items]. }
  rewrite (run_bind _ _ _ _ _ Hrun). by exists h', g'.
Qed.

(** *** The random permutation *)

Lemma run_load_rows (h : store) g (items : list loc) (v : individual) :
  Forall2 (fun r c => row_at h r = Some c) items v ->
  map_prog R (load_row R) items (h, g) = Return (v, (h, g)).
Proof.
  induction 1 as [| r c items v Hr _ IH]; [done |].
  cbn [map_prog]. unfold bnd at 1. rewrite (run_load_row _ _ _ _ Hr).
  unfold bnd at 1. by rewrite IH.
Qed.

Lemma run_read_individual (h : store) g l (v : individual) :
  individual_at h l = Some v -> read_individual R l (h, g) = Return (v, (h, g)).
Proof.
  intros (items & Hitems & Hrows)%individual_at_Some. unfold read_individual.
  rewrite (run_bind _ _ _ _ _ (run_load_list _ _ _ _ Hitems)).
  by apply run_load_rows.
Qed.

Lemma run_read_population (h : store) g (population : list loc)
    (values : list individual) :
  Forall2 (fun l v => individual_at h l = Some v) population values ->
  map_prog R (read_individual R) population (h, g) = Return (values, (h, g)).
Proof.
  induction 1 as [| l v population values Hl _ IH]; [done |].
  cbn [map_prog]. unfold bnd at 1. rewrite (run_read_individual _ _ _ _ Hl).
  unfold bnd at 1. by rewrite IH.
Qed.

Lemma run_alloc_rows (v : individual) :
  forall (h : store) g,
    map_prog R (fun c => alloc R (Row c)) v (h, g)
    = Return (seq (length h) (length v), (h ++ map Row v, g)).
Proof.
  induction v as [| c v IH]; intros h g.
  - cbn [map_prog length seq map]. unfold ret. by rewrite app_nil_r.
  - cbn [map_prog]. unfold bnd at 1. cbn [alloc]. unfold bnd at 1.
    rewrite IH. unfold ret.
    rewrite length_app, Nat.add_1_r, <- app_assoc. done.
Qed.

Lemma run_new_individual (h : store) g (v : individual) :
  exists h',
    new_individual R v (h, g) = Return ((length h + length v)%nat, (h', g)) /\
    preserves h h' /\
    individual_at h' (length h + length v) = Some v.
Proof.
  exists ((h ++ map Row v) ++ [PyList (seq (length h) (length v))]).
  split; [| split].
  - unfold new_individual. rewrite (run_bind _ _ _ _ _ (run_alloc_rows v h g)).
    unfold alloc. by rewrite length_app, length_map.
  - intros l o Hl. by apply lookup_app_l_Some, lookup_app_l_Some.
  - apply individual_at_Some. exists (seq (length h) (length v)). split.
    + apply list_at_Some.
      replace (length h + length v)%nat with (length (h ++ map Row v))
        by (by rewrite length_app, length_map).
      by rewrite list_lookup_middle.
    + apply Forall2_same_length_lookup. split; [by rewrite length_seq |].
      intros i r c [-> Hi]%lookup_seq Hc.
      apply row_at_Some, lookup_app_l_Some.
      rewrite lookup_app_r by lia.
      replace (length h + i - length h)%nat with i by lia.
      by rewrite list_lookup_fmap, Hc.
Qed.

Lemma run_new_population (values : list individual) :
  forall (h : store) g,
  exists arr h',
    map_prog R (new_individual R) values (h, g) = Return (arr, (h', g)) /\
    preserves h h' /\
    Forall2 (fun l v => individual_at h' l = Some v) arr values.
Proof.
  induction values as [| v values IH]; intros h g.
  - exists [], h. repeat split; [apply preserves_refl | constructor].
  - destruct (run_new_individual h g v) as (h_a & Hrun_a & Hpres_a & Hv).
    destruct (IH h_a g) as (arr & h' & Hrun & Hpres & Hall).
    exists ((length h + length v)%nat :: arr), h'.
    split; [| split].
    + cbn [map_prog]. unfold bnd at 1. rewrite Hrun_a. unfold bnd at 1.
      by rewrite Hrun.
    + by eapply preserves_trans.
    + constructor; [| done]. by eapply individual_at_preserved.
Qed.

Lemma run_np_permutation (h : store) g (population : list loc)
    (values : list individual) :
  Forall2 (fun l v => individual_at h l = Some v) population values ->
  exists arr h1,
    np_permutation R population (h, g)
    = Return ((shuffle R arr g).1, (h1, (shuffle R arr g).2)) /\
    preserves h h1 /\
    Forall2 (fun l v => individual_at h1 l = Some v) arr values.
Proof.
  intros Hpop.
  destruct (run_new_population values h g) as (arr & h1 & Hrun & Hpres & Hall).
  exists arr, h1. split; [| by split].
  unfold np_permutation.
  rewrite (run_bind _ _ _ _ _ (run_read_population _ _ _ _ Hpop)).
  rewrite (run_bind _ _ _ _ _ Hrun).
  unfold draw_shuffle. by destruct (shuffle R arr g).
Qed.

(** *** The shape of the new population *)



(** *** Crossover *)

Lemma mutated_preserves (h0 h h' : store) (c : loc) n :
  preserves h0 h -> (length h0 <= c)%nat -> mutated h c n h' -> preserves h0 h'.
Proof.
  intros Hp Hc [Hkeep _] l o Hl. apply Hkeep; [| by apply Hp].
  apply lookup_lt_Some in Hl. lia.
Qed.

(** The loop of [crossover] from an even position of [parents] on. *)
Lemma crossover_loop (h1 : store) (suf : list loc) :
  Forall (fun l => exists v : individual, individual_at h1 l = Some v) suf ->
  (forall k l1 l2 (v1 v2 : individual),
     suf !! (2 * k)%nat = Some l1 -> suf !! (2 * k + 1)%nat = Some l2 ->
     individual_at h1 l1 = Some v1 -> individual_at h1 l2 = Some v2 ->
     length v1 = length v2) ->
  Nat.Even (length suf) ->
  forall pre new_population h g,
    Nat.Even (length pre) ->
    preserves h1 h ->
    exists out h' g',
      for_each_prog R (seq (length pre) (length suf)) new_population
        (fun new_population parent =>
           if negb (parent mod 2 =? 0)%nat then ret R new_population
           else
             p1 ← lift R (item (pre ++ suf) parent);
             let new_population := new_population ++ [p1] in
             p2 ← lift R (item (pre ++ suf) (parent + 1));
             let new_population := new_population ++ [p2] in
             p1 ← lift R (item (pre ++ suf) parent);
             p2 ← lift R (item (pre ++ suf) (parent + 1));
             '(new_child1, new_child2) ← new_children R p1 p2;
             m1 ← mutation R new_child1;
             let new_population := new_population ++ [m1] in
             m2 ← mutation R new_child2;
             let new_population := new_population ++ [m2] in
             ret R new_population)
        (h, g)
      = Return (new_population ++ out, (h', g')) /\
      preserves h h' /\
      next_generation R h1 suf out.
Proof.
  induction suf as [| l1 | l1 l2 suf IH] using list_pair_ind;
    intros Hvalid Hsame Hsuf pre acc h g Hpre Hh.
  - exists [], h, g. cbn [length seq for_each_prog]. unfold ret.
    rewrite app_nil_r. repeat split; [apply preserves_refl | constructor].
  - destruct Hsuf as [k Hk]. simpl in Hk. lia.
  - assert (Hsuf' : Nat.Even (length suf)).
    { destruct Hsuf as [k Hk]. exists (k - 1)%nat. simpl in Hk. lia. }
    apply Forall_cons in Hvalid as [[v1 Hv1] Hvalid].
    apply Forall_cons in Hvalid as [[v2 Hv2] Hvalid].
    assert (Hlen : length v1 = length v2) by (by apply (Hsame 0%nat l1 l2)).
    destruct Hpre as [k Hk].
    cbn [length seq for_each_prog].
    assert (H0 : (length pre mod 2 =? 0)%nat = true).
    { rewrite Hk, Nat.mul_comm, Nat.Div0.mod_mul. done. }
    assert (H1 : (S (length pre) mod 2 =? 0)%nat = false).
    { rewrite Hk. replace (S (2 * k)) with (1 + k * 2)%nat by lia.
      rewrite Nat.Div0.mod_add. done. }
    unfold bnd at 1. rewrite H0. cbn [negb].
    assert (Hi1 : item (pre ++ l1 :: l2 :: suf) (length pre) = Return l1).
    { apply item_Some. by rewrite list_lookup_middle. }
    assert (Hi2 : item (pre ++ l1 :: l2 :: suf) (length pre + 1) = Return l2).
    { apply item_Some. rewrite lookup_app_r by lia.
      by replace (length pre + 1 - length pre)%nat with 1%nat by lia. }
    assert (Hlift : forall (A : Type) (a : A) s, lift R (Return a) s = Return (a, s))
      by done.
    rewrite Hi1, Hi2.
    rewrite !(run_bind _ _ _ _ _ (Hlift _ _ _)).
    destruct (run_new_children h g l1 l2 v1 v2)
      as (h_mid & g_mid & w1 & w2 & Hrun & Hmid & Hlen_mid & Hc1 & Hc2 & _);
      [by apply (individual_at_preserved h1) | by apply (individual_at_preserved h1)
      | done |].
    rewrite (run_bind _ _ _ _ _ Hrun).
    apply individual_at_Some in Hc1 as (items1 & Hitems1 & _).
    apply individual_at_Some in Hc2 as (items2 & Hitems2 & _).
    destruct (run_mutation h_mid g_mid (length h) items1 Hitems1)
      as (h_a & g_a & Hrun_a & Hmut_a).
    rewrite (run_bind _ _ _ _ _ Hrun_a).
    assert (Hitems2' : list_at h_a (S (length h)) = Some items2).
    { apply list_at_Some. apply Hmut_a; [lia | by apply list_at_Some]. }
    destruct (run_mutation h_a g_a (S (length h)) items2 Hitems2')
      as (h_b & g_b & Hrun_b & Hmut_b).
    rewrite (run_bind _ _ _ _ _ Hrun_b).
    unfold ret at 1.
    assert (Hhb : preserves h h_b).
    { eapply mutated_preserves; [| | exact Hmut_b]; [| lia].
      eapply mutated_preserves; [| | exact Hmut_a]; [done | lia]. }
    unfold bnd at 1. rewrite H1. cbn [negb]. unfold ret at 1.
    destruct (IH Hvalid) with (pre := pre ++ [l1; l2])
        (new_population := (((acc ++ [l1]) ++ [l2]) ++ [length h]) ++ [S (length h)])
        (h := h_b) (g := g_b)
      as (out & h' & g' & Hloop & Hh' & Hout).
    { intros i a b va vb Ha Hb. apply (Hsame (S i) a b va vb).
      - by replace (2 * S i)%nat with (S (S (2 * i))) by lia.
      - by replace (2 * S i + 1)%nat with (S (S (2 * i + 1))) by lia. }
    { done. }
    { exists (k + 1)%nat. rewrite length_app. simpl. lia. }
    { by eapply preserves_trans. }
    rewrite length_app, <- (app_assoc pre [l1; l2] suf) in Hloop.
    cbn [length app] in Hloop.
    replace (length pre + 2)%nat with (S (S (length pre))) in Hloop by lia.
    rewrite Hloop.
    exists (l1 :: l2 :: length h :: S (length h) :: out), h', g'.
    split; [by rewrite <- !app_assoc | split].
    + by eapply preserves_trans.
    + constructor; [| done]. by exists h, g, h_mid, g_mid.
Qed.

End StoreProofs.

Lemma Forall2_Permutation_l {A B : Type} (P : A -> B -> Prop) (l l' : list A) :
  Permutation l l' ->
  forall k, Forall2 P l k -> exists k', Permutation k k' /\ Forall2 P l' k'.
Proof.
  induction 1 as [| x l l' _ IH | x y l | l1 l2 l3 _ IH1 _ IH2]; intros k Hk.
  - apply Forall2_nil_inv_l in Hk as ->. by exists [].
  - apply Forall2_cons_inv_l in Hk as (b & k0 & Hb & Hk0 & ->).
    destruct (IH k0 Hk0) as (k' & Hperm & Hall).
    exists (b :: k'). split; [by constructor | by constructor].
  - apply Forall2_cons_inv_l in Hk as (b1 & k0 & Hb1 & Hk0 & ->).
    apply Forall2_cons_inv_l in Hk0 as (b2 & k1 & Hb2 & Hk1 & ->).
    exists (b2 :: b1 :: k1). split; [by constructor | by repeat constructor].
  - destruct (IH1 k Hk) as (k' & Hperm1 & Hall1).
    destruct (IH2 k' Hall1) as (k'' & Hperm2 & Hall2).
    exists k''. split; [by etrans | done].
Qed.


(** * Further properties of the code *)

(** ** Pitch codec: decoding first *)

(** The degree of a chromatic name is its position in the list. *)
Lemma note_number_loop_index (k : nat) (name : string) :
  notes !! k = Some name -> note_number_loop name notes 0 0 = Z.of_nat k.
Proof.
  intros Hname.
  assert (Hk : (k < 12)%nat) by (apply lookup_lt_Some in Hname; exact Hname).
  do 12 (destruct k as [| k]; [injection Hname as <-; reflexivity |]).
  lia.
Qed.

(** X1. Decoding a pitch and encoding the result gives the pitch back: for
    every pitch [m] with [0 <= m < 12 * 2^50], [midi_number_to_note m]
    returns the name of degree [m mod 12] and the octave [m / 12], and
    [note_to_midi_number] on them returns [m]. *)
Theorem midi_number_round_trip (m : Z) :
  0 <= m < 12 * 2 ^ 50 ->
  exists name,
    notes !! Z.to_nat (m mod 12) = Some name /\
    midi_number_to_note m = Return (name, m / 12) /\
    note_to_midi_number name (m / 12) = Return m.
Proof.
  intros Hm.
  pose proof (Z.mod_pos_bound m 12 ltac:(lia)) as Hk.
  pose proof (Z.div_mod m 12 ltac:(lia)) as Hdm.
  assert (Ho : 0 <= m / 12 < 2 ^ 50).
  { split; [apply Z.div_pos; lia | apply Z.div_lt_upper_bound; lia]. }
  destruct (lookup_lt_is_Some_2 notes (Z.to_nat (m mod 12))) as [name Hname].
  { change (length notes) with 12%nat. lia. }
  exists name. split; [exact Hname | split].
  - replace m with (m / 12 * 12 + m mod 12) at 1 by lia.
    by apply midi_number_to_note_decodes.
  - unfold note_to_midi_number. rewrite (note_number_loop_index _ _ Hname).
    f_equal. lia.
Qed.

Lemma midi_number_round_trip_witness :
  exists name,
    notes !! Z.to_nat (67 mod 12) = Some name /\
    midi_number_to_note 67 = Return (name, 67 / 12) /\
    note_to_midi_number name (67 / 12) = Return 67.
Proof. apply (midi_number_round_trip 67). lia. Defined.

(** ** Pitch codec: negative pitches *)

(** The sign of the dividend only marks the quotient. *)
Lemma SFdiv_negative (p q : positive) :
  SFdiv 53 1024 (S754_finite true p 0) (S754_finite false q 0)
  = SFopp (SFdiv 53 1024 (S754_finite false p 0) (S754_finite false q 0)).
Proof.
  unfold SFdiv.
  destruct (SFdiv_core_binary 53 1024 (Z.pos p) 0 (Z.pos q) 0) as [[mz ez] lz].
  cbn [xorb]. unfold binary_round_aux.
  destruct (shr_fexp 53 1024 mz ez lz) as [mrs' e'].
  destruct (shr_fexp 53 1024 _ e' loc_Exact) as [mrs'' e''].
  destruct (shr_m mrs'') as [| m | m]; [reflexivity | | reflexivity].
  destruct (e'' <=? 1024 - 53); reflexivity.
Qed.

Lemma float_to_int_opp (x : spec_float) (v : Z) :
  float_to_int x = Return v -> float_to_int (SFopp x) = Return (- v).
Proof.
  destruct x as [s | s | | s m e]; cbn [float_to_int SFopp]; intros Hx;
    try discriminate Hx.
  - by injection Hx as <-.
  - injection Hx as <-. f_equal. destruct s; cbn [negb]; lia.
Qed.

Lemma int_truediv_negative (o r : Z) :
  0 <= o < 2 ^ 50 -> 0 <= r < 12 -> 0 < o * 12 + r ->
  (q ← int_truediv (- (o * 12 + r)) 12; float_to_int q) = Return (- o).
Proof.
  intros Ho Hr Hpos. unfold int_truediv. cbn [Z.eqb].
  destruct (o * 12 + r) as [| p | p] eqn:Hp; [lia | | lia].
  change (int_operand (- Z.pos p)) with (S754_finite true p 0).
  change (int_operand 12) with (S754_finite false 12 0). rewrite SFdiv_negative.
  pose proof (binary64_quotient_by_12 o r p Ho Hr ltac:(lia)) as Hq.
  apply float_to_int_opp in Hq.
  destruct (SFdiv 53 1024 (S754_finite false p 0) (S754_finite false 12 0));
    cbn [SFopp float_to_int mbind outcome_bind] in *;
    first [exact Hq | discriminate Hq].
Qed.

(** X2. A negative pitch is decoded without an error, but not to itself:
    the float quotient is truncated toward zero and the negative degree
    counts from the end of the list of names.  For [-12 * 2^50 < m < 0]
    that is not a multiple of 12, [midi_number_to_note m] returns the name
    of degree [m mod 12] with the octave [m / 12 + 1], one above the floor,
    and encoding the result gives [m + 12]; so the pitch [-1] of a rest is
    decoded as [("B", 0)], like the pitch 11. *)
Theorem midi_number_round_trip_negative (m : Z) :
  - (12 * 2 ^ 50) < m < 0 -> m mod 12 <> 0 ->
  exists name,
    notes !! Z.to_nat (m mod 12) = Some name /\
    midi_number_to_note m = Return (name, m / 12 + 1) /\
    note_to_midi_number name (m / 12 + 1) = Return (m + 12).
Proof.
  intros Hm Hnz.
  set (o := (- m) / 12). set (r := (- m) mod 12).
  pose proof (Z.mod_pos_bound (- m) 12 ltac:(lia)) as Hr. fold r in Hr.
  pose proof (Z.div_mod (- m) 12 ltac:(lia)) as Hdm. fold o r in Hdm.
  assert (Ho : 0 <= o < 2 ^ 50).
  { unfold o. split; [apply Z.div_pos; lia | apply Z.div_lt_upper_bound; lia]. }
  assert (Hr0 : r <> 0).
  { unfold r. intros H0. apply Hnz. apply Z.mod_opp_l_z in H0; [| lia].
    by rewrite Z.opp_involutive in H0. }
  assert (Hfloor : m / 12 = - o - 1 /\ m mod 12 = 12 - r).
  { pose proof (Z.mod_pos_bound m 12 ltac:(lia)).
    pose proof (Z.div_mod m 12 ltac:(lia)). lia. }
  destruct Hfloor as [-> ->].
  replace (- o - 1 + 1) with (- o) by lia.
  destruct (lookup_lt_is_Some_2 notes (Z.to_nat (12 - r))) as [name Hname].
  { change (length notes) with 12%nat. lia. }
  exists name. split; [exact Hname | split].
  - unfold midi_number_to_note.
    pose proof (int_truediv_negative o r Ho Hr ltac:(lia)) as Hq.
    replace (- (o * 12 + r)) with m in Hq by lia.
    destruct (int_truediv m 12) as [q | e]; [| discriminate Hq].
    cbn [mbind outcome_bind] in *. rewrite Hq. cbn [mbind outcome_bind]. cbv zeta.
    replace (m - - o * 12) with (- r) by lia.
    unfold py_index. change (Z.of_nat (length notes)) with 12.
    destruct (Z.ltb_spec (- r) 0) as [_ |]; [| lia].
    destruct (Z.ltb_spec (12 + - r) 0) as [| _]; [lia |].
    replace (12 + - r) with (12 - r) by lia. by rewrite Hname.
  - unfold note_to_midi_number. rewrite (note_number_loop_index _ _ Hname).
    f_equal. lia.
Qed.

Lemma midi_number_round_trip_negative_witness :
  exists name,
    notes !! Z.to_nat (-1 mod 12) = Some name /\
    midi_number_to_note (-1) = Return (name, -1 / 12 + 1) /\
    note_to_midi_number name (-1 / 12 + 1) = Return (-1 + 12).
Proof. apply (midi_number_round_trip_negative (-1)); [lia | done]. Defined.

(** ** Pitch codec: no two notes share a pitch *)

(** X3. [note_to_midi_number] is injective on the chromatic names: two
    notes with the same pitch have the same name and the same octave,
    whatever the octaves (negative ones included). *)
Theorem note_to_midi_number_injective (n n' : string) (o o' : Z) :
  In n notes -> In n' notes ->
  note_to_midi_number n o = note_to_midi_number n' o' ->
  n = n' /\ o = o'.
Proof.
  intros Hn Hn' Heq.
  apply list_elem_of_In, list_elem_of_lookup in Hn as [k Hk].
  apply list_elem_of_In, list_elem_of_lookup in Hn' as [k' Hk'].
  unfold note_to_midi_number in Heq.
  rewrite (note_number_loop_index _ _ Hk), (note_number_loop_index _ _ Hk') in Heq.
  injection Heq as Heq.
  assert (Hlt : (k < 12)%nat) by (apply lookup_lt_Some in Hk; exact Hk).
  assert (Hlt' : (k' < 12)%nat) by (apply lookup_lt_Some in Hk'; exact Hk').
  assert (k = k') as -> by lia.
  split; [congruence | lia].
Qed.

Lemma note_to_midi_number_injective_witness :
  "G"%string = "G"%string /\ 5 = 5.
Proof.
  apply (note_to_midi_number_injective "G" "G" 5 5);
    [simpl; tauto | simpl; tauto | reflexivity].
Defined.

(** ** Scale resolver *)

(** X4. For each of the twelve chromatic root names, in the minor as in
    the major mode, [get_possible_chords] gives a scale of seven distinct
    names that begins with the root. *)
Theorem get_possible_chords_known_root (key_type root_note : string) :
  In root_note notes ->
  let possible_chords := get_possible_chords key_type root_note in
  length possible_chords = 7%nat /\
  possible_chords !! 0%nat = Some root_note /\
  NoDup possible_chords.
Proof.
  intros Hroot. unfold get_possible_chords.
  unfold notes in Hroot. simpl in Hroot.
  destruct (String.eqb key_type "minor");
    repeat (destruct Hroot as [<- | Hroot];
            [ split; [reflexivity | split; [reflexivity |]];
              apply (bool_decide_unpack _); vm_compute; exact I |]);
    destruct Hroot.
Qed.

Lemma get_possible_chords_known_root_witness :
  let possible_chords := get_possible_chords "minor" "A" in
  length possible_chords = 7%nat /\
  possible_chords !! 0%nat = Some "A"%string /\
  NoDup possible_chords.
Proof. apply (get_possible_chords_known_root "minor" "A"). simpl. tauto. Defined.

Lemma scale_lookup_unknown (table : list (string * list string)) (root_note : string)
    (possible_chords : list string) :
  Forall (fun keys => fst keys <> root_note) table ->
  scale_lookup table root_note possible_chords = possible_chords.
Proof.
  unfold scale_lookup. induction 1 as [| keys table Hkeys _ IH]; simpl; [done |].
  destruct (String.eqb_spec (fst keys) root_note) as [| _]; [done | exact IH].
Qed.

(** X5. A root that is not one of the twelve chromatic names (a flat such
    as "B-", which the tables do not list) is found in neither table:
    [get_possible_chords] returns the empty scale, and [chord_exists] then
    gives every chord of every individual -100 without raising. *)
Theorem get_possible_chords_unknown_root (key_type root_note : string)
    (individual : individual) :
  ~ In root_note notes ->
  get_possible_chords key_type root_note = [] /\
  chord_exists individual (get_possible_chords key_type root_note)
  = Return (- 100 * Z.of_nat (length individual)).
Proof.
  intros Hroot.
  assert (Hscale : get_possible_chords key_type root_note = []).
  { unfold get_possible_chords.
    destruct (String.eqb key_type "minor"); apply scale_lookup_unknown;
      repeat constructor; simpl; intros <-; apply Hroot; simpl; tauto. }
  split; [exact Hscale |]. rewrite Hscale.
  unfold chord_exists. rewrite for_each_items.
  assert (Hloop : forall score,
    for_each individual score
      (fun score c =>
         let '(t, m, d) := c in
         let tonic := t mod 12 in
         let mediant := m mod 12 in
         let dominant := d mod 12 in
         '(score, possible) ←
           triad_loop tonic mediant dominant [] (range (length (@nil string))) score false;
         Return (if possible : bool then score else score - 100))
    = Return (score - 100 * Z.of_nat (length individual))).
  { induction individual as [| [[t m] d] individual IH]; intros score.
    - simpl. f_equal. lia.
    - cbn [for_each length range seq triad_loop mbind outcome_bind].
      rewrite IH. f_equal. cbn [length]. lia. }
  rewrite Hloop. f_equal. lia.
Qed.

Lemma get_possible_chords_unknown_root_witness :
  get_possible_chords "major" "B-" = [] /\
  chord_exists [(0, 4, 7)] (get_possible_chords "major" "B-")
  = Return (- 100 * Z.of_nat (length [(0, 4, 7)])).
Proof.
  apply (get_possible_chords_unknown_root "major" "B-" [(0, 4, 7)]).
  simpl. intros H. repeat (destruct H as [H | H]; [discriminate H |]). exact H.
Defined.

(** ** Fitness evaluator: scale membership and octaves *)

(** X6. The scale-membership term reads the tones of a chord modulo 12
    only: two individuals whose chords differ by whole octaves, tone by
    tone, get the same result for every scale, so an inverted chord of the
    catalog scores as its root position. *)
Theorem chord_exists_pitch_classes (individual individual' : individual)
    (possible_chords : list string) :
  Forall2 same_pitch_classes individual individual' ->
  chord_exists individual possible_chords = chord_exists individual' possible_chords.
Proof.
  intros Hsame. unfold chord_exists. rewrite !for_each_items.
  generalize 0 as score.
  induction Hsame as [| [[t m] d] [[t' m'] d'] l l' (Ht & Hm & Hd) _ IH];
    intros score; [done |].
  cbn [for_each]. rewrite Ht, Hm, Hd.
  destruct (triad_loop _ _ _ _ _ _ _) as [[score' possible] | e];
    cbn [mbind outcome_bind]; [apply IH | done].
Qed.

Lemma chord_exists_pitch_classes_witness :
  chord_exists [first_inverted_major 0; second_inverted_minor 2] c_major
  = chord_exists [major_triad 0; minor_triad 2] c_major.
Proof.
  apply (chord_exists_pitch_classes
           [first_inverted_major 0; second_inverted_minor 2]
           [major_triad 0; minor_triad 2] c_major).
  repeat constructor.
Defined.

(** ** Fitness evaluator: the redundancy term *)

Lemma tonic_at_lookup (individual : individual) (i : nat) (c : chord) :
  individual !! i = Some c ->
  tonic_at individual (Z.of_nat i) = Return (tonic_of c).
Proof.
  intros Hc. unfold tonic_at.
  change (py_index individual (Z.of_nat i)) with (item individual i).
  by rewrite (item_Some _ _ _ Hc).
Qed.

(** The loop of [redundant_chords] from position [length before] on, the
    chords before it being [before], the nearest first. *)
Lemma redundant_chords_loop (suf : list chord) :
  forall (before : list chord) (score : Z),
    for_each (seq (length before) (length suf)) score
      (fun (score : Z) (i : nat) =>
         score ←
           (if (2 <=? i)%nat then
              redundant ← for_each (range 3) true
                (fun (redundant : bool) (_ : nat) =>
                   first ← tonic_at (rev before ++ suf) (Z.of_nat i - 2);
                   second ← tonic_at (rev before ++ suf) (Z.of_nat i - 1);
                   third ← tonic_at (rev before ++ suf) (Z.of_nat i);
                   Return (if negb (first =? second) || negb (first =? third)
                              || negb (second =? third)
                           then false else redundant));
              Return (if redundant : bool then score - 100 else score + 100)
            else Return score);
         if (1 <=? i)%nat then
           pair ← for_each (range 3) true
             (fun (pair : bool) (_ : nat) =>
                first ← tonic_at (rev before ++ suf) (Z.of_nat i - 1);
                second ← tonic_at (rev before ++ suf) (Z.of_nat i);
                Return (if negb (first =? second) then false else pair));
           Return (if pair : bool then score + 100 else score - 100)
         else Return score)
    = Return (score + redundancy (map tonic_of before) (map tonic_of suf)).
Proof.
  induction suf as [| c suf IH]; intros before score.
  - simpl. f_equal. lia.
  - cbn [length seq for_each map redundancy].
    assert (H3 : tonic_at (rev before ++ c :: suf) (Z.of_nat (length before))
                 = Return (tonic_of c)).
    { apply tonic_at_lookup. rewrite lookup_app_r by (rewrite length_rev; lia).
      by rewrite length_rev, Nat.sub_diag. }
    specialize (IH (c :: before)).
    cbn [rev length map] in IH. rewrite <- app_assoc in IH. cbn [app] in IH.
    destruct before as [| b [| a before]].
    + change (2 <=? length (@nil chord))%nat with false.
      change (1 <=? length (@nil chord))%nat with false.
      cbn [mbind outcome_bind]. rewrite IH.
      f_equal; unfold redundancy_term; cbn [map]; lia.
    + assert (H2 : tonic_at (rev [b] ++ c :: suf) (Z.of_nat (length [b]) - 1)
                   = Return (tonic_of b)) by reflexivity.
      change (2 <=? length [b])%nat with false.
      change (1 <=? length [b])%nat with true.
      cbn [mbind outcome_bind range seq for_each].
      rewrite H2, H3. cbn [mbind outcome_bind].
      rewrite IH. unfold redundancy_term. cbn [map].
      destruct (tonic_of b =? tonic_of c); cbn [negb]; f_equal; lia.
    + assert (H1 : tonic_at (rev (b :: a :: before) ++ c :: suf)
                     (Z.of_nat (length (b :: a :: before)) - 2)
                   = Return (tonic_of a)).
      { replace (Z.of_nat (length (b :: a :: before)) - 2)
          with (Z.of_nat (length before)) by (cbn [length]; lia).
        apply tonic_at_lookup. cbn [rev]. rewrite <- !app_assoc.
        rewrite lookup_app_r by (rewrite length_rev; lia).
        by rewrite length_rev, Nat.sub_diag. }
      assert (H2 : tonic_at (rev (b :: a :: before) ++ c :: suf)
                     (Z.of_nat (length (b :: a :: before)) - 1)
                   = Return (tonic_of b)).
      { replace (Z.of_nat (length (b :: a :: before)) - 1)
          with (Z.of_nat (S (length before))) by (cbn [length]; lia).
        apply tonic_at_lookup. cbn [rev]. rewrite <- !app_assoc.
        rewrite lookup_app_r by (rewrite length_rev; lia).
        rewrite length_rev. by replace (S (length before) - length before)%nat with 1%nat by lia. }
      assert (Hi2 : (2 <=? length (b :: a :: before))%nat = true) by reflexivity.
      assert (Hi1 : (1 <=? length (b :: a :: before))%nat = true) by reflexivity.
      rewrite Hi2, Hi1. cbn [range seq for_each].
      rewrite H1, H2, H3. cbn [mbind outcome_bind].
      rewrite IH. unfold redundancy_term. cbn [map].
      destruct (Z.eqb_spec (tonic_of a) (tonic_of b)) as [Hab | Hab];
        destruct (Z.eqb_spec (tonic_of b) (tonic_of c)) as [Hbc | Hbc];
        destruct (Z.eqb_spec (tonic_of a) (tonic_of c)) as [Hac | Hac];
        cbn [negb orb andb]; first [f_equal; lia | congruence].
Qed.

(** X7. The redundancy term is a sum over the chords that reads their
    tonics only: each chord from the second on adds +100 when its tonic
    repeats the tonic before it and -100 when it does not, and each chord
    from the third on adds -100 when the three last tonics are the same and
    +100 when they are not.  [redundant_chords] never raises. *)
Theorem redundant_chords_redundancy (individual : individual) :
  redundant_chords individual = Return (redundancy [] (map tonic_of individual)).
Proof.
  pose proof (redundant_chords_loop individual [] 0) as Hloop.
  cbn [length rev app map] in Hloop.
  unfold redundant_chords. etransitivity; [exact Hloop | f_equal].
Qed.

(** From the third chord on a chord adds 0 or 200, and 200 only when it
    starts a new pair. *)
Lemma redundancy_bounds (tonics : list Z) :
  forall a b before,
    0 <= redundancy (b :: a :: before) tonics
      <= 100 * Z.of_nat (length tonics) + (if a =? b then 0 else 100).
Proof.
  induction tonics as [| c tonics IH]; intros a b before.
  - cbn [redundancy length]. destruct (a =? b); lia.
  - cbn [redundancy length]. specialize (IH b c (a :: before)).
    unfold redundancy_term.
    destruct (Z.eqb_spec a b) as [Hab | Hab];
      destruct (Z.eqb_spec b c) as [Hbc | Hbc]; cbn [andb]; lia.
Qed.

Lemma redundancy_range (tonics : list Z) :
  -100 <= redundancy [] tonics <= Z.max 0 (100 * (Z.of_nat (length tonics) - 1)).
Proof.
  destruct tonics as [| c0 [| c1 tonics]]; cbn [redundancy length].
  - lia.
  - unfold redundancy_term. lia.
  - pose proof (redundancy_bounds tonics c0 c1 []) as Hb.
    unfold redundancy_term. destruct (c0 =? c1); lia.
Qed.

(** X8. The redundancy term is never below -100 and never above
    [100 * (n - 1)] for an individual of [n >= 1] chords (0 for the empty
    individual): after the second chord no chord lowers the score, and a
    chord raises it, by 200, only when it starts a new pair. *)
Theorem redundant_chords_bounds (individual : individual) :
  exists score,
    redundant_chords individual = Return score /\
    -100 <= score <= Z.max 0 (100 * (Z.of_nat (length individual) - 1)).
Proof.
  exists (redundancy [] (map tonic_of individual)). split.
  - pose proof (redundant_chords_loop individual [] 0) as Hloop.
    cbn [length rev app map] in Hloop.
    unfold redundant_chords. etransitivity; [exact Hloop | f_equal].
  - pose proof (redundancy_range (map tonic_of individual)) as Hr.
    by rewrite length_map in Hr.
Qed.

(** ** Fitness evaluator: the range of the fitness *)

Lemma capped_proximity_bounds (t : Q) (x : Z) :
  (0 <= capped_proximity t x <= 10)%Q.
Proof.
  unfold capped_proximity. split; [apply Q.le_max_r |].
  pose proof (Qabs_nonneg (t - inject_Z x)). apply Q.max_lub; lra.
Qed.

Lemma slot_similarity_bounds (t : Q) (c : chord) :
  (0 <= slot_similarity t c <= 200)%Q.
Proof.
  destruct c as [[tonic mediant] dominant]. unfold slot_similarity.
  pose proof (capped_proximity_bounds t tonic).
  pose proof (capped_proximity_bounds t mediant).
  pose proof (capped_proximity_bounds t dominant).
  lra.
Qed.

Lemma sum_upto_bounds (n : nat) (f : nat -> Q) :
  (forall i, 0 <= f i <= 200)%Q ->
  (0 <= sum_upto n f <= 200 * inject_Z (Z.of_nat n))%Q.
Proof.
  intros Hf. induction n as [| n IH].
  - cbn [sum_upto]. change (inject_Z (Z.of_nat 0)) with 0%Q. lra.
  - cbn [sum_upto]. specialize (Hf n).
    rewrite Nat2Z.inj_succ. unfold Z.succ. rewrite inject_Z_plus.
    change (inject_Z 1) with 1%Q. lra.
Qed.

Lemma scale_membership_bounds (individual : individual) (scale : list string) :
  - 100 * Z.of_nat (length individual)
  <= scale_membership individual scale
  <= 100 * Z.of_nat (length individual).
Proof.
  induction individual as [| c individual IH]; cbn [scale_membership fold_right length].
  - lia.
  - fold (scale_membership individual scale). destruct (in_scale scale c); lia.
Qed.

(** X9. With a scale of seven names the fitness of an individual is
    defined whatever the lengths of the individual and of the target, and
    for an individual of [n] chords it lies between [-100 * (n + 1)] and
    [400 * n]. *)
Theorem individual_fitness_bounds (individual : individual) (target : list Q)
    (possible_chords : list string) :
  length possible_chords = 7%nat ->
  exists f,
    individual_fitness individual target possible_chords = Return f /\
    (inject_Z (- 100 * (Z.of_nat (length individual) + 1)) <= f
     <= inject_Z (400 * Z.of_nat (length individual)))%Q.
Proof.
  intros Hlen. unfold individual_fitness.
  destruct (similarity_returns individual target) as (s1 & -> & Hs1).
  rewrite (chord_exists_total individual possible_chords Hlen).
  pose proof (redundant_chords_loop individual [] 0) as Hloop.
  cbn [length rev app map] in Hloop.
  assert (Hred : redundant_chords individual
                 = Return (redundancy [] (map tonic_of individual))).
  { unfold redundant_chords. etransitivity; [exact Hloop | f_equal]. }
  rewrite Hred. cbn [mbind outcome_bind]. eexists. split; [reflexivity |].
  pose proof (sum_upto_bounds (Nat.min (length individual) (length target))
                (fun i => slot_similarity (nth i target 0%Q)
                            (nth i individual (0, 0, 0)))
                (fun i => slot_similarity_bounds _ _)) as Hsim.
  fold (similarity_sum individual target) in Hsim. rewrite <- Hs1 in Hsim.
  pose proof (scale_membership_bounds individual possible_chords) as Hsm.
  pose proof (redundancy_range (map tonic_of individual)) as Hr.
  rewrite length_map in Hr.
  set (n := Z.of_nat (length individual)) in *.
  set (k := Z.of_nat (Nat.min (length individual) (length target))) in *.
  assert (Hk : 0 <= k <= n) by (unfold k, n; lia).
  set (sm := scale_membership individual possible_chords) in *.
  set (rd := redundancy [] (map tonic_of individual)) in *.
  assert (Hlo : - 100 * (n + 1) <= 0 + sm + rd) by lia.
  assert (Hhi : 200 * k + sm + rd <= 400 * n) by lia.
  rewrite Zle_Qle in Hlo, Hhi.
  rewrite !inject_Z_plus in Hlo. rewrite !inject_Z_plus, inject_Z_mult in Hhi.
  change (inject_Z 0) with 0%Q in Hlo. change (inject_Z 200) with 200%Q in Hhi.
  lra.
Qed.

Lemma individual_fitness_bounds_witness :
  exists f,
    individual_fitness [(0, 4, 7); rest] [36 # 1] c_major = Return f /\
    (inject_Z (- 100 * (Z.of_nat (length [(0, 4, 7)%Z; rest]) + 1)) <= f
     <= inject_Z (400 * Z.of_nat (length [(0, 4, 7)%Z; rest])))%Q.
Proof. apply (individual_fitness_bounds [(0, 4, 7); rest] [36 # 1] c_major). reflexivity. Defined.

(** ** Generation report *)









(** ** Tournament selection: odd populations, and what selection keeps *)

Lemma for_each_ext {A B : Type} (xs : list B) (acc : A) (body body' : A -> B -> outcome A) :
  (forall a x, x ∈ xs -> body a x = body' a x) ->
  for_each xs acc body = for_each xs acc body'.
Proof.
  revert acc. induction xs as [| x xs IH]; intros acc Hext; [done |].
  cbn [for_each]. rewrite (Hext acc x) by (by left).
  destruct (body' acc x) as [acc' | e]; cbn [mbind outcome_bind]; [| done].
  apply IH. intros a y Hy. apply Hext. by right.
Qed.

Lemma item_app_l {A : Type} (l l' : list A) (i : nat) :
  (i < length l)%nat -> item (l ++ l') i = item l i.
Proof. intros Hi. by rewrite !item_lookup, lookup_app_l. Qed.

Lemma odd_list_split {A : Type} (l : list A) :
  Nat.Odd (length l) ->
  exists front a, l = front ++ [a] /\ Nat.Even (length front).
Proof.
  intros [k Hk]. destruct (decide (l = [])) as [-> | Hne]; [simpl in Hk; lia |].
  destruct (exists_last Hne) as (front & a & ->).
  exists front, a. split; [done |]. exists k.
  rewrite length_app in Hk. simpl in Hk. lia.
Qed.

(** X12. On a population of odd size, with a scale of seven names,
    [selection] raises [IndexError]: the last contestant of the bracket has
    no opponent. *)
Theorem selection_odd_population (R : random_source) (population : list individual)
    (target : list Q) (possible_chords : list string) (g : rng R) :
  length possible_chords = 7%nat ->
  Nat.Odd (length population) ->
  selection R population target possible_chords g = Raise IndexError.
Proof.
  intros Hlen Hodd. unfold selection.
  pose proof (shuffle_perm R _ population g) as Hperm.
  destruct (shuffle R population g) as [bracket g']. cbn [fst] in Hperm.
  rewrite (Permutation_length Hperm) in Hodd.
  destruct (odd_list_split bracket Hodd) as (front & a & -> & Heven).
  rewrite length_app. cbn [length]. unfold range.
  rewrite Nat.add_1_r, seq_S, for_each_app. cbn [Nat.add].
  set (body := fun (tournament_winners : list individual) (contestantID : nat) => _).
  rewrite (for_each_ext (seq 0 (length front)) [] body
             (fun tournament_winners contestantID =>
                if negb (contestantID mod 2 =? 0)%nat then Return tournament_winners
                else
                  a ← item ([] ++ front) contestantID;
                  fa ← individual_fitness a target possible_chords;
                  b ← item ([] ++ front) (contestantID + 1);
                  fb ← individual_fitness b target possible_chords;
                  if Qgtb fa fb then
                    w ← item ([] ++ front) contestantID;
                    Return (tournament_winners ++ [w])
                  else
                    w ← item ([] ++ front) (contestantID + 1);
                    Return (tournament_winners ++ [w]))).
  - pose proof (selection_loop target possible_chords front Hlen Heven [] [])
      as Hloop.
    change (length (@nil individual)) with 0%nat in Hloop.
    rewrite Hloop by (by exists 0%nat).
    cbn [mbind outcome_bind for_each]. unfold body.
    destruct Heven as [k Hk].
    assert (H0 : (length front mod 2 =? 0)%nat = true).
    { rewrite Hk, Nat.mul_comm, Nat.Div0.mod_mul. done. }
    rewrite H0. cbn [negb].
    rewrite (item_Some (front ++ [a]) (length front) a)
      by (by rewrite list_lookup_middle).
    cbn [mbind outcome_bind].
    rewrite (individual_fitness_returns a target possible_chords Hlen).
    cbn [mbind outcome_bind].
    rewrite item_lookup, lookup_ge_None_2; [done |].
    rewrite length_app. simpl. lia.
  - intros winners i Hi%elem_of_seq. unfold body. cbn [app].
    destruct (i mod 2 =? 0)%nat eqn:Ei; cbn [negb]; [| done].
    apply Nat.eqb_eq in Ei.
    assert (Hi1 : (i + 1 < length front)%nat).
    { destruct Heven as [k Hk].
      pose proof (Nat.div_mod_eq i 2). lia. }
    rewrite !(item_app_l front [a]) by lia. done.
Qed.

Lemma selection_odd_population_witness :
  selection counter_source [[rest]; [(0, 4, 7)]; [rest]] [36 # 1] c_major 0%nat
  = Raise IndexError.
Proof.
  apply (selection_odd_population counter_source [[rest]; [(0, 4, 7)]; [rest]]
           [36 # 1] c_major 0%nat); [reflexivity | by exists 1%nat].
Defined.






(** ** Melody quantizer: the average of a buffer *)





(** ** Melody quantizer: melodies without gaps *)

Lemma average_notes_body_event (original_melody : list (Z * Z)) (st : quantizer) (i : nat) :
  average_notes_body original_melody st i
  = (ev ← item original_melody i; quantize_event st ev).
Proof. reflexivity. Qed.

Lemma average_notes_events (original_melody : list (Z * Z)) :
  average_notes original_melody
  = (st ← for_each original_melody (Quantizer [] [] 0) quantize_event;
     Return (map (fun r => r - 24)%Q (q_ret st))).
Proof.
  unfold average_notes. f_equal.
  apply (for_each_items original_melody (Quantizer [] [] 0) quantize_event).
Qed.










(** ** Output encoder: the accompaniment track *)

Lemma write_chord_cases (generated_track : list message) (rest_time : Z) (c : chord) :
  write_chord (generated_track, rest_time) c
  = if sounding c then (generated_track ++ chord_messages rest_time c, 0)
    else (generated_track, rest_time + quarter_time).
Proof.
  destruct c as [[tonic mediant] dominant].
  unfold write_chord, sounding, tonic_of. cbn [fst].
  destruct (tonic =? 0); cbn [negb]; [done |].
  unfold chord_messages. rewrite <- !app_assoc. cbn [app].
  by destruct (Z.eqb_spec rest_time 0) as [-> |].
Qed.

Lemma track_time_app (track track' : list message) :
  track_time (track ++ track') = track_time track + track_time track'.
Proof.
  unfold track_time. induction track as [| msg track IH]; cbn [app foldr]; lia.
Qed.

Lemma track_time_chord (rest_time : Z) (c : chord) :
  track_time (chord_messages rest_time c) = rest_time + quarter_time.
Proof. destruct c as [[t m] d]. unfold track_time. cbn. lia. Qed.

(** The loop of [write_output], from any point. *)
Lemma write_chords_loop (best_individual : individual) :
  forall (generated_track : list message) (rest_time : Z),
  exists body rest_time',
    fold_left write_chord best_individual (generated_track, rest_time)
    = (generated_track ++ body, rest_time') /\
    length body = (6 * length (filter (fun c => sounding c = true) best_individual))%nat /\
    track_time body + rest_time'
    = rest_time + quarter_time * Z.of_nat (length best_individual) /\
    rest_time'
    = fold_left (fun rest_time c => if sounding c then 0 else rest_time + quarter_time)
        best_individual rest_time.
Proof.
  induction best_individual as [| c best IH]; intros track r.
  - exists [], r. cbn. rewrite app_nil_r. repeat split; lia.
  - cbn [fold_left]. rewrite write_chord_cases.
    destruct (sounding c) eqn:Hc.
    + destruct (IH (track ++ chord_messages r c) 0) as (body & r' & -> & Hlen & Htime & Hr').
      exists (chord_messages r c ++ body), r'.
      rewrite <- app_assoc. split; [done |]. split; [| split].
      * rewrite filter_cons_True by done. rewrite length_app. cbn [length].
        destruct c as [[t m] d]. cbn [chord_messages length]. lia.
      * rewrite track_time_app, track_time_chord. cbn [length]. lia.
      * done.
    + destruct (IH track (r + quarter_time)) as (body & r' & -> & Hlen & Htime & Hr').
      exists body, r'. split; [done |]. split; [| split].
      * rewrite filter_cons_False by (by rewrite Hc). done.
      * cbn [length]. lia.
      * done.
Qed.

Lemma py_index_last_Some {A : Type} (l : list A) (x : A) :
  last l = Some x -> py_index l (Z.of_nat (length l) - 1) = Return x.
Proof.
  intros Hlast. destruct l as [| y l] using rev_ind; [done |].
  rewrite last_snoc in Hlast. injection Hlast as ->. apply py_index_last.
Qed.

Lemma py_index_head {A : Type} (l : list A) (x : A) :
  head l = Some x -> py_index l 0 = Return x.
Proof. by destruct l as [| y l]; [| intros [= ->]]. Qed.

(** X16. [write_output] needs two tracks in the input file and a message
    in the second one: with fewer than two tracks, or an empty second
    track, it raises [IndexError] before it writes anything. *)
Theorem write_output_missing_track (input_mid : midi_file) (best_individual : individual) :
  (length (tracks input_mid) < 2)%nat \/ tracks input_mid !! 1%nat = Some [] ->
  write_output input_mid best_individual = Raise IndexError.
Proof.
  unfold write_output. destruct (tracks input_mid) as [| t0 [| t1 others]].
  - done.
  - done.
  - intros [Hlen | Hempty]; [simpl in Hlen; lia |].
    injection Hempty as ->. done.
Qed.

Lemma write_output_missing_track_witness :
  write_output (MidiFile [[Message "note_on" 0 60 50 0]] 480) [(60, 64, 67)]
  = Raise IndexError.
Proof.
  apply (write_output_missing_track
           (MidiFile [[Message "note_on" 0 60 50 0]] 480) [(60, 64, 67)]).
  left. simpl. lia.
Defined.

(** X17. For an input file with at least two tracks, the second one not
    empty, and an individual of playable chords, [write_output] returns a
    file of exactly three tracks: the first two tracks of the input as they
    are (further tracks are dropped) and the accompaniment, with the ticks
    per beat of the input.  The accompaniment begins with the first message
    of the second track, ends with its last message, and holds six messages
    for each chord in between, the chords of tonic 0 excepted.  The times
    of these messages add up to one quarter per chord, less the silence
    pending after the last sounding chord, which is dropped. *)
Theorem write_output_accompaniment (input_mid : midi_file) (best_individual : individual)
    (t0 t1 : list message) (others : list (list message)) (first final : message) :
  tracks input_mid = t0 :: t1 :: others ->
  head t1 = Some first -> last t1 = Some final ->
  Forall playable best_individual ->
  exists body,
    write_output input_mid best_individual
    = Return (MidiFile [t0; t1; first :: body ++ [final]] (ticks_per_beat input_mid)) /\
    length body
    = (6 * length (filter (fun c => sounding c = true) best_individual))%nat /\
    track_time body
    = quarter_time * Z.of_nat (length best_individual) - pending_rest best_individual.
Proof.
  intros Htracks Hfirst Hfinal _. unfold write_output. rewrite Htracks.
  change (py_index (t0 :: t1 :: others) 0) with (Return t0).
  change (py_index (t0 :: t1 :: others) 1) with (Return t1).
  cbn [mbind outcome_bind]. rewrite (py_index_head _ _ Hfirst).
  cbn [mbind outcome_bind].
  destruct (write_chords_loop best_individual [first] 0)
    as (body & r' & -> & Hlen & Htime & Hr').
  rewrite (py_index_last_Some _ _ Hfinal). cbn [mbind outcome_bind app].
  exists body. split; [done | split; [done |]].
  unfold pending_rest. rewrite <- Hr'. lia.
Qed.

Lemma write_output_accompaniment_witness :
  exists body,
    write_output
      (MidiFile [[Message "set_tempo" 0 0 0 0];
                 [Message "track_name" 0 0 0 0; Message "end_of_track" 0 0 0 1]] 480)
      [(60, 64, 67); (0, 4, 7); (62, 65, 69); (0, 3, 7)]
    = Return (MidiFile
                [[Message "set_tempo" 0 0 0 0];
                 [Message "track_name" 0 0 0 0; Message "end_of_track" 0 0 0 1];
                 Message "track_name" 0 0 0 0 :: body ++ [Message "end_of_track" 0 0 0 1]]
                (ticks_per_beat
                   (MidiFile [[Message "set_tempo" 0 0 0 0];
                              [Message "track_name" 0 0 0 0;
                               Message "end_of_track" 0 0 0 1]] 480))) /\
    length body
    = (6 * length (filter (fun c => sounding c = true)
                     [(60, 64, 67); (0, 4, 7); (62, 65, 69); (0, 3, 7)]%Z))%nat /\
    track_time body
    = quarter_time * Z.of_nat (length [(60, 64, 67); (0, 4, 7); (62, 65, 69); (0, 3, 7)])
      - pending_rest [(60, 64, 67); (0, 4, 7); (62, 65, 69); (0, 3, 7)].
Proof.
  apply (write_output_accompaniment
           (MidiFile [[Message "set_tempo" 0 0 0 0];
                      [Message "track_name" 0 0 0 0; Message "end_of_track" 0 0 0 1]] 480)
           [(60, 64, 67); (0, 4, 7); (62, 65, 69); (0, 3, 7)]
           [Message "set_tempo" 0 0 0 0]
           [Message "track_name" 0 0 0 0; Message "end_of_track" 0 0 0 1] []
           (Message "track_name" 0 0 0 0) (Message "end_of_track" 0 0 0 1));
    [reflexivity | reflexivity | reflexivity |].
  repeat constructor; unfold midi_note; lia.
Defined.

(** ** Input parser, and the accompaniment read back *)

Lemma parse_message_other (pressed_keys : list (Z * Z)) (msg : message) :
  note_message msg = false -> parse_message pressed_keys msg = pressed_keys.
Proof.
  unfold note_message, parse_message. intros [Hon Hoff]%orb_false_elim.
  by rewrite Hon, Hoff.
Qed.

Lemma parse_chord_messages (pressed_keys : list (Z * Z)) (c : chord) :
  fold_left parse_message (chord_messages 0 c) pressed_keys
  = pressed_keys ++ [(tonic_of c, quarter_time)].
Proof. by destruct c as [[t m] d]. Qed.

Lemma parse_accompaniment (best_individual : individual) :
  forall pressed_keys,
    fold_left parse_message (flat_map (chord_messages 0) best_individual) pressed_keys
    = pressed_keys ++ map (fun c => (tonic_of c, quarter_time)) best_individual.
Proof.
  induction best_individual as [| c best IH]; intros pressed_keys.
  - by rewrite app_nil_r.
  - cbn [flat_map map]. rewrite fold_left_app, parse_chord_messages, IH.
    by rewrite <- app_assoc.
Qed.

Lemma write_sounding_chords (best_individual : individual) :
  Forall (fun c => sounding c = true) best_individual ->
  forall generated_track,
    fold_left write_chord best_individual (generated_track, 0)
    = (generated_track ++ flat_map (chord_messages 0) best_individual, 0).
Proof.
  induction 1 as [| c best Hc _ IH]; intros track.
  - by rewrite app_nil_r.
  - cbn [fold_left flat_map]. rewrite write_chord_cases, Hc, IH.
    by rewrite <- app_assoc.
Qed.

(** The accompaniment of an individual whose chords all sound. *)
Lemma write_output_sounding (input_mid : midi_file) (best_individual : individual)
    (t0 t1 : list message) (others : list (list message)) (first final : message) :
  tracks input_mid = t0 :: t1 :: others ->
  head t1 = Some first -> last t1 = Some final ->
  Forall (fun c => sounding c = true) best_individual ->
  write_output input_mid best_individual
  = Return (MidiFile
              [t0; t1;
               first :: flat_map (chord_messages 0) best_individual ++ [final]]
              (ticks_per_beat input_mid)).
Proof.
  intros Htracks Hfirst Hfinal Hsound. unfold write_output. rewrite Htracks.
  change (py_index (t0 :: t1 :: others) 0) with (Return t0).
  change (py_index (t0 :: t1 :: others) 1) with (Return t1).
  cbn [mbind outcome_bind]. rewrite (py_index_head _ _ Hfirst).
  cbn [mbind outcome_bind]. rewrite (write_sounding_chords _ Hsound).
  rewrite (py_index_last_Some _ _ Hfinal). done.
Qed.

Lemma parse_generated_track (best_individual : individual) (first final : message)
    (pressed_keys : list (Z * Z)) :
  note_message first = false -> note_message final = false ->
  fold_left parse_message
    (first :: flat_map (chord_messages 0) best_individual ++ [final]) pressed_keys
  = pressed_keys ++ map (fun c => (tonic_of c, quarter_time)) best_individual.
Proof.
  intros Hfirst Hfinal. cbn [fold_left].
  rewrite (parse_message_other _ _ Hfirst), fold_left_app, parse_accompaniment.
  cbn [fold_left]. by rewrite (parse_message_other _ _ Hfinal).
Qed.

Lemma parse_input_last_track (ts : list (list message)) (t : list message) (tpb tpb' : Z) :
  parse_input (MidiFile (ts ++ [t]) tpb)
  = fold_left parse_message t (parse_input (MidiFile ts tpb')).
Proof. unfold parse_input. cbn [tracks]. by rewrite fold_left_app. Qed.

(** X18. What [write_output] writes, [parse_input] reads back: for an
    input file of two tracks, the second one beginning and ending with
    messages that are no note messages, and an individual of playable
    chords of tonic other than 0, the events of the output file are the
    events of the input file followed by one event for each chord, its
    tonic for one quarter. *)
Theorem parse_input_write_output (input_mid : midi_file) (best_individual : individual)
    (t0 t1 : list message) (first final : message) :
  tracks input_mid = [t0; t1] ->
  head t1 = Some first -> last t1 = Some final ->
  note_message first = false -> note_message final = false ->
  Forall playable best_individual ->
  Forall (fun c => sounding c = true) best_individual ->
  exists output_mid,
    write_output input_mid best_individual = Return output_mid /\
    parse_input output_mid
    = parse_input input_mid
      ++ map (fun c => (tonic_of c, quarter_time)) best_individual.
Proof.
  intros Htracks Hfirst Hfinal Hnf Hnl _ Hsound.
  rewrite (write_output_sounding input_mid best_individual t0 t1 [] first final)
    by done.
  eexists. split; [reflexivity |].
  change [t0; t1; ?g] with ([t0; t1] ++ [g]).
  rewrite (parse_input_last_track _ _ _ (ticks_per_beat input_mid)).
  rewrite parse_generated_track by done.
  destruct input_mid as [ts tpb]. cbn [tracks ticks_per_beat] in *. by subst ts.
Qed.

Lemma parse_input_write_output_witness :
  exists output_mid,
    write_output
      (MidiFile [[Message "set_tempo" 0 0 0 0];
                 [Message "track_name" 0 0 0 0; Message "note_on" 0 72 64 0;
                  Message "note_off" 0 72 0 384; Message "end_of_track" 0 0 0 1]] 480)
      [(60, 64, 67); (62, 65, 69)]
    = Return output_mid /\
    parse_input output_mid
    = parse_input
        (MidiFile [[Message "set_tempo" 0 0 0 0];
                   [Message "track_name" 0 0 0 0; Message "note_on" 0 72 64 0;
                    Message "note_off" 0 72 0 384; Message "end_of_track" 0 0 0 1]] 480)
      ++ map (fun c => (tonic_of c, quarter_time)) [(60, 64, 67); (62, 65, 69)].
Proof.
  apply (parse_input_write_output
           (MidiFile [[Message "set_tempo" 0 0 0 0];
                      [Message "track_name" 0 0 0 0; Message "note_on" 0 72 64 0;
                       Message "note_off" 0 72 0 384; Message "end_of_track" 0 0 0 1]] 480)
           [(60, 64, 67); (62, 65, 69)]
           [Message "set_tempo" 0 0 0 0]
           [Message "track_name" 0 0 0 0; Message "note_on" 0 72 64 0;
            Message "note_off" 0 72 0 384; Message "end_of_track" 0 0 0 1]
           (Message "track_name" 0 0 0 0) (Message "end_of_track" 0 0 0 1));
    try reflexivity.
  - repeat constructor; unfold midi_note; lia.
  - repeat constructor.
Defined.

(** ** Melody quantizer: notes of one quarter *)

Lemma Forall2_map_l {A B C : Type} (P : C -> B -> Prop) (f : A -> C)
    (l : list A) (k : list B) :
  Forall2 (fun x y => P (f x) y) l k -> Forall2 P (map f l) k.
Proof. induction 1; by constructor. Qed.

Lemma Forall2_map_r_inv {A B C : Type} (P : A -> C -> Prop) (f : B -> C)
    (l : list A) (k : list B) :
  Forall2 P l (map f k) -> Forall2 (fun x y => P x (f y)) l k.
Proof.
  revert l. induction k as [| y k IH]; intros l Hl; inversion Hl; subst;
    constructor; [done | by apply IH].
Qed.

Lemma quantize_quarter_note (ret : list Q) (p : Z) :
  p <> 0 ->
  exists a,
    quantize_event (Quantizer ret [] 0) (p, quarter_time)
    = Return (Quantizer (ret ++ [a]) [] 0) /\
    (a == inject_Z p)%Q.
Proof.
  intros Hp. destruct (get_averages_single p quarter_time) as (a & Ha & Haq); [done |].
  exists a. split; [| done].
  unfold quantize_event. cbn [fst snd q_time q_ret q_averages].
  destruct (Z.eqb_spec p 0) as [| _]; [done |].
  change (0 + quarter_time <? quarter_time) with false.
  change (0 + quarter_time =? quarter_time) with true.
  cbn [app]. rewrite Ha. cbn [mbind outcome_bind].
  by change (quarter_time <=? 0) with false.
Qed.

Lemma quantize_quarter_notes (pitches : list Z) :
  Forall (fun p => p <> 0) pitches ->
  forall ret,
  exists slots,
    for_each (map (fun p => (p, quarter_time)) pitches) (Quantizer ret [] 0) quantize_event
    = Return (Quantizer (ret ++ slots) [] 0) /\
    Forall2 (fun v p => (v == inject_Z p)%Q) slots pitches.
Proof.
  induction 1 as [| p pitches Hp _ IH]; intros ret.
  - exists []. rewrite app_nil_r. by split; [| constructor].
  - cbn [map for_each].
    destruct (quantize_quarter_note ret p Hp) as (a & -> & Ha).
    cbn [mbind outcome_bind].
    destruct (IH (ret ++ [a])) as (slots & -> & Hslots).
    exists (a :: slots). rewrite <- app_assoc. split; [done |]. by constructor.
Qed.

(** X19. A melody of sounding notes that last one quarter each is
    returned note for note: the quantizer gives one slot per note, the
    pitch of the note less 24. *)
Theorem average_notes_quarter_notes (pitches : list Z) :
  Forall (fun p => p <> 0) pitches ->
  exists slots,
    average_notes (map (fun p => (p, quarter_time)) pitches) = Return slots /\
    Forall2 (fun v p => (v == inject_Z p - 24)%Q) slots pitches.
Proof.
  intros Hp. rewrite average_notes_events.
  destruct (quantize_quarter_notes pitches Hp []) as (slots & -> & Hslots).
  cbn [mbind outcome_bind q_ret app]. eexists. split; [reflexivity |].
  apply Forall2_map_l. eapply Forall2_impl; [exact Hslots |].
  intros v p Hv. cbv beta in *. lra.
Qed.

Lemma average_notes_quarter_notes_witness :
  exists slots,
    average_notes (map (fun p => (p, quarter_time)) [60; 64; 67]) = Return slots /\
    Forall2 (fun v p => (v == inject_Z p - 24)%Q) slots [60; 64; 67].
Proof.
  apply (average_notes_quarter_notes [60; 64; 67]). repeat constructor; lia.
Defined.

(** X20. The accompaniment read back by the program itself: for an input
    file with at least two tracks, the second one beginning and ending with
    messages that are no note messages, and an individual of playable
    chords of tonic other than 0, parsing the accompaniment track that
    [write_output] writes and quantizing the result gives one slot per
    chord, the tonic of the chord less 24. *)
Theorem accompaniment_read_back (input_mid : midi_file) (best_individual : individual)
    (t0 t1 : list message) (others : list (list message)) (first final : message) :
  tracks input_mid = t0 :: t1 :: others ->
  head t1 = Some first -> last t1 = Some final ->
  note_message first = false -> note_message final = false ->
  Forall playable best_individual ->
  Forall (fun c => sounding c = true) best_individual ->
  exists output_mid generated_track slots,
    write_output input_mid best_individual = Return output_mid /\
    tracks output_mid !! 2%nat = Some generated_track /\
    average_notes (parse_input (MidiFile [generated_track] (ticks_per_beat output_mid)))
    = Return slots /\
    Forall2 (fun v c => (v == inject_Z (tonic_of c) - 24)%Q) slots best_individual.
Proof.
  intros Htracks Hfirst Hfinal Hnf Hnl _ Hsound.
  rewrite (write_output_sounding input_mid best_individual t0 t1 others first final)
    by done.
  exists (MidiFile
            [t0; t1; first :: flat_map (chord_messages 0) best_individual ++ [final]]
            (ticks_per_beat input_mid)),
    (first :: flat_map (chord_messages 0) best_individual ++ [final]).
  cbn [tracks ticks_per_beat].
  assert (Hparse : parse_input
                     (MidiFile
                        [first :: flat_map (chord_messages 0) best_individual ++ [final]]
                        (ticks_per_beat input_mid))
                   = map (fun p => (p, quarter_time)) (map tonic_of best_individual)).
  { unfold parse_input. cbn [tracks fold_left].
    change (fold_left parse_message
              (first :: flat_map (chord_messages 0) best_individual ++ [final]) []
            = map (fun p => (p, quarter_time)) (map tonic_of best_individual)).
    rewrite parse_generated_track by done. by rewrite map_map. }
  rewrite Hparse.
  destruct (quantize_quarter_notes (map tonic_of best_individual)) with (ret := @nil Q)
    as (slots & Hrun & Hslots).
  { apply Forall_map. eapply Forall_impl; [exact Hsound |].
    intros c Hc. unfold sounding in Hc. cbv beta. by destruct (Z.eqb_spec (tonic_of c) 0). }
  exists (map (fun r => r - 24)%Q slots).
  split; [reflexivity | split; [reflexivity | split]].
  - rewrite average_notes_events, Hrun. done.
  - apply Forall2_map_l. apply Forall2_map_r_inv in Hslots.
    eapply Forall2_impl; [exact Hslots |].
    intros v c Hv. cbv beta in *. lra.
Qed.

Lemma accompaniment_read_back_witness :
  exists output_mid generated_track slots,
    write_output
      (MidiFile [[Message "set_tempo" 0 0 0 0];
                 [Message "track_name" 0 0 0 0; Message "end_of_track" 0 0 0 1]] 480)
      [(60, 64, 67); (62, 65, 69)]
    = Return output_mid /\
    tracks output_mid !! 2%nat = Some generated_track /\
    average_notes (parse_input (MidiFile [generated_track] (ticks_per_beat output_mid)))
    = Return slots /\
    Forall2 (fun v c => (v == inject_Z (tonic_of c) - 24)%Q) slots
      [(60, 64, 67); (62, 65, 69)].
Proof.
  apply (accompaniment_read_back
           (MidiFile [[Message "set_tempo" 0 0 0 0];
                      [Message "track_name" 0 0 0 0; Message "end_of_track" 0 0 0 1]] 480)
           [(60, 64, 67); (62, 65, 69)]
           [Message "set_tempo" 0 0 0 0]
           [Message "track_name" 0 0 0 0; Message "end_of_track" 0 0 0 1] []
           (Message "track_name" 0 0 0 0) (Message "end_of_track" 0 0 0 1));
    try reflexivity.
  - repeat constructor; unfold midi_note; lia.
  - repeat constructor.
Defined.

(** ** Input parser and quantizer: melodies played legato *)





(** ** Population engine: the genes drawn at random *)

Lemma counter_source_randint_in_range : randint_in_range counter_source.
Proof.
  intros a b g Hab. cbn [randint counter_source fst].
  pose proof (Z.mod_pos_bound (Z.of_nat g) (b - a + 1) ltac:(lia)). lia.
Qed.

Lemma run_random_chord_catalog (R : random_source) (h : store) (g : rng R) :
  randint_in_range R ->
  exists c g', random_chord R (h, g) = Return (c, (h, g')) /\ catalog_chord c.
Proof.
  intros Hrange. unfold random_chord.
  repeat (erewrite run_bind by apply run_draw_randint).
  repeat match goal with
         | |- context [randint R 0 110 ?g0] =>
             lazymatch goal with
             | _ : 0 <= (randint R 0 110 g0).1 <= 110 |- _ => fail
             | _ => pose proof (Hrange 0 110 g0 ltac:(lia))
             end
         end.
  unfold choice.
  match goal with |- context [randbelow R ?n ?g0] =>
    pose proof (randbelow_lt R n g0) as Hlt; destruct (randbelow R n g0) as [k g'] end.
  cbn [length fst] in Hlt. specialize (Hlt ltac:(lia)).
  do 10 (destruct k as [| k];
         [ eexists _, _; split; [reflexivity |];
           first [ by left
                 | right; unfold playable, midi_note, major_triad, minor_triad,
                     first_inverted_major, first_inverted_minor,
                     second_inverted_major, second_inverted_minor,
                     sus2, sus4, diminished; lia ] |]).
  lia.
Qed.

(** X22. When [random.randint] keeps to its range, the chord that
    [create_population] and [mutation] draw is the rest or a chord of the
    catalog on a root from 0 to 110, whose three tones are MIDI notes
    (0 to 127); drawing it never fails and leaves the store as it is. *)
Theorem random_chord_catalog (R : random_source) (h : store) (g : rng R) :
  randint_in_range R ->
  exists c g', random_chord R (h, g) = Return (c, (h, g')) /\ catalog_chord c.
Proof. intros Hrange. by apply run_random_chord_catalog. Qed.

Lemma random_chord_catalog_witness :
  exists c g',
    random_chord counter_source (example_store, 3%nat) = Return (c, (example_store, g')) /\
    catalog_chord c.
Proof.
  apply (random_chord_catalog counter_source example_store 3%nat).
  exact counter_source_randint_in_range.
Defined.

(** ** Population engine: mutation in place *)

Section MutationProofs.
Context (R : random_source).

(** The loop of [mutation] over the positions [chords], from any point. *)
Lemma mutation_loop_genes (h : store) (individual : loc) (items : list loc)
    (chords : list nat) :
  randint_in_range R ->
  (individual < length h)%nat ->
  Forall (fun i => i < length items)%nat chords ->
  forall h0 g items0,
    preserves_but individual h h0 -> (length h <= length h0)%nat ->
    list_at h0 individual = Some items0 ->
    genes_kept_or_fresh h items h0 items0 ->
    exists h' g' items',
      for_each_prog R chords tt
        (fun _ chord =>
           probability_of_mutation ← draw_uniform R 0 1;
           if Qgtb (5 # 100) probability_of_mutation then
             c ← random_chord R;
             r ← alloc R (Row c);
             list_set R individual chord r
           else ret R tt)
        (h0, g)
      = Return (tt, (h', g')) /\
      preserves_but individual h h' /\ (length h <= length h')%nat /\
      list_at h' individual = Some items' /\
      genes_kept_or_fresh h items h' items'.
Proof.
  intros Hrange Hind. induction 1 as [| i chords Hi _ IH];
    intros h0 g items0 Hkeep Hgrow Hitems0 Hgenes.
  - exists h0, g, items0. split; [done | split; [done | split; [done | split; done]]].
  - cbn [for_each_prog]. unfold bnd at 1.
    rewrite (run_bind _ _ _ _ _ _ (run_draw_uniform _ _ _ _ _)).
    destruct (Qgtb (5 # 100) (uniform R 0 1 g).1).
    + destruct (run_random_chord_catalog R h0 (uniform R 0 1 g).2 Hrange)
        as (c & g2 & Hc & Hcat).
      rewrite (run_bind _ _ _ _ _ _ Hc).
      rewrite (run_bind _ _ _ (h0, g2) (length h0) (h0 ++ [Row c], g2)) by done.
      destruct Hgenes as [Hlen Hgenes].
      rewrite (run_list_set _ _ _ _ _ _ _ (list_at_app h0 [Row c] _ _ Hitems0))
        by lia.
      assert (Hind0 : (individual < length h0)%nat) by lia.
      apply (IH _ _ (<[i := length h0]> items0)).
      * intros l o Hl Ho. rewrite list_lookup_insert_ne by done.
        by apply lookup_app_l_Some, Hkeep.
      * rewrite length_insert, length_app. lia.
      * apply list_at_Some. apply list_lookup_insert_eq.
        rewrite length_app. lia.
      * split; [by rewrite length_insert |].
        intros j r Hj.
        destruct (decide (j = i)) as [-> | Hne].
        -- rewrite list_lookup_insert_eq in Hj by lia. injection Hj as <-.
           right. split; [done |]. exists c. split; [| done].
           apply row_at_Some. rewrite list_lookup_insert_ne by lia.
           by rewrite lookup_app_r, Nat.sub_diag.
        -- rewrite list_lookup_insert_ne in Hj by done.
           destruct (Hgenes j r Hj) as [Hold | (Hr & c' & Hc' & Hcat')]; [by left |].
           right. split; [done |]. exists c'. split; [| done].
           apply row_at_Some. rewrite list_lookup_insert_ne by lia.
           by apply lookup_app_l_Some, row_at_Some.
    + unfold ret at 1. by apply (IH h0 _ items0).
Qed.

End MutationProofs.

(** X23. [mutation] works in place: it returns the reference it was given,
    to a list of the same length, and changes no other object of the store,
    so that an individual sharing chords with the mutated one keeps them.
    When [random.randint] keeps to its range, each gene of the result is
    the gene that was there or a newly allocated chord of the catalog. *)
Theorem mutation_in_place (R : random_source) (h : store) (g : rng R)
    (individual : loc) (items : list loc) :
  randint_in_range R ->
  list_at h individual = Some items ->
  exists h' g' items',
    mutation R individual (h, g) = Return (individual, (h', g')) /\
    preserves_but individual h h' /\
    list_at h' individual = Some items' /\
    genes_kept_or_fresh h items h' items'.
Proof.
  intros Hrange Hitems. unfold mutation.
  rewrite (run_bind _ _ _ _ _ _ (run_list_len R _ _ _ _ Hitems)).
  assert (Hind : (individual < length h)%nat).
  { apply list_at_Some, lookup_lt_Some in Hitems. exact Hitems. }
  destruct (mutation_loop_genes R h individual items (range (length items)) Hrange Hind)
    with (h0 := h) (g := g) (items0 := items)
    as (h' & g' & items' & Hrun & Hkeep & _ & Hitems' & Hgenes).
  { apply Forall_forall. intros i Hi%elem_of_seq. lia. }
  { by intros l o _ Ho. }
  { done. }
  { done. }
  { split; [done |]. intros i r Hr. by left. }
  rewrite (run_bind _ _ _ _ _ _ Hrun). by exists h', g', items'.
Qed.

Lemma mutation_in_place_witness :
  exists h' g' items',
    mutation counter_source 2%nat (example_store, 0%nat) = Return (2%nat, (h', g')) /\
    preserves_but 2%nat example_store h' /\
    list_at h' 2%nat = Some items' /\
    genes_kept_or_fresh example_store [0; 1]%nat h' items'.
Proof.
  apply (mutation_in_place counter_source example_store 0%nat 2%nat [0; 1]%nat);
    [exact counter_source_randint_in_range | reflexivity].
Defined.

(** ** Population engine: the first population *)

Section FirstPopulationProofs.
Context (R : random_source).

(** The inner loop of [create_population], filling the list at
    [individual], from any point. *)
Lemma fill_individual_loop (individual : loc) (xs : list nat) :
  randint_in_range R ->
  forall h0 g items0 (v0 : list chord),
    list_at h0 individual = Some items0 ->
    Forall2 (fun r c => row_at h0 r = Some c) items0 v0 ->
    Forall catalog_chord v0 ->
    exists h' g' v',
      for_each_prog R xs tt
        (fun _ _ =>
           c ← random_chord R;
           r ← alloc R (Row c);
           list_append R individual r)
        (h0, g)
      = Return (tt, (h', g')) /\
      preserves_but individual h0 h' /\
      individual_at h' individual = Some v' /\
      length v' = (length v0 + length xs)%nat /\
      Forall catalog_chord v'.
Proof.
  intros Hrange. induction xs as [| x xs IH]; intros h0 g items0 v0 Hitems Hrows Hcat.
  - exists h0, g, v0. split; [done |]. split; [by intros l o _ Ho |].
    split; [| split; [cbn [length]; lia | done]].
    apply individual_at_Some. by exists items0.
  - cbn [for_each_prog]. unfold bnd at 1.
    destruct (run_random_chord_catalog R h0 g Hrange) as (c & g2 & Hc & Hcatc).
    rewrite (run_bind _ _ _ _ _ _ Hc).
    rewrite (run_bind _ _ _ (h0, g2) (length h0) (h0 ++ [Row c], g2)) by done.
    rewrite (run_list_append _ _ _ _ _ _ (list_at_app h0 [Row c] _ _ Hitems)).
    assert (Hind : (individual < length h0)%nat).
    { apply list_at_Some, lookup_lt_Some in Hitems. exact Hitems. }
    set (h2 := <[individual := PyList (items0 ++ [length h0])]> (h0 ++ [Row c])).
    assert (Hkeep : preserves_but individual h0 h2).
    { intros l o Hl Ho. unfold h2. rewrite list_lookup_insert_ne by done.
      by apply lookup_app_l_Some. }
    destruct (IH h2 g2 (items0 ++ [length h0]) (v0 ++ [c]))
      as (h' & g' & v' & Hrun & Hkeep' & Hv' & Hlen & Hcat').
    + apply list_at_Some. unfold h2. apply list_lookup_insert_eq.
      rewrite length_app. lia.
    + apply Forall2_app.
      * eapply Forall2_impl; [exact Hrows |].
        intros r c' Hr. apply row_at_Some. apply Hkeep; [| by apply row_at_Some].
        intros ->. apply row_at_Some in Hr. apply list_at_Some in Hitems. congruence.
      * constructor; [| constructor]. apply row_at_Some. unfold h2.
        rewrite list_lookup_insert_ne by lia.
        by rewrite lookup_app_r, Nat.sub_diag.
    + apply Forall_app. split; [done |]. by apply Forall_singleton.
    + exists h', g', v'. split; [exact Hrun |]. split; [| split; [done | split; [| done]]].
      * intros l o Hl Ho. by apply Hkeep', Hkeep.
      * rewrite Hlen, length_app. cbn [length]. lia.
Qed.

(** The outer loop of [create_population], from any point. *)
Lemma create_population_loop (len : Z) (xs : list nat) :
  randint_in_range R ->
  forall h0 g population,
    Forall (fun l => exists v, individual_at h0 l = Some v /\
                       length v = Z.to_nat len /\ Forall catalog_chord v) population ->
    NoDup population ->
    exists out h' g',
      for_each_prog R xs population
        (fun population _ =>
           individual ← alloc R (PyList []);
           _ ← for_each_prog R (range (Z.to_nat len)) tt
                 (fun _ _ =>
                    c ← random_chord R;
                    r ← alloc R (Row c);
                    list_append R individual r);
           ret R (population ++ [individual]))
        (h0, g)
      = Return (out, (h', g')) /\
      preserves h0 h' /\
      length out = (length population + length xs)%nat /\
      NoDup out /\
      Forall (fun l => exists v, individual_at h' l = Some v /\
                         length v = Z.to_nat len /\ Forall catalog_chord v) out.
Proof.
  intros Hrange. induction xs as [| x xs IH]; intros h0 g population Hpop Hnodup.
  - exists population, h0, g. split; [done |]. split; [apply preserves_refl |].
    split; [cbn [length]; lia | by split].
  - cbn [for_each_prog]. unfold bnd at 1.
    rewrite (run_bind _ _ _ (h0, g) (length h0) (h0 ++ [PyList []], g)) by done.
    destruct (fill_individual_loop (length h0) (range (Z.to_nat len)) Hrange
                (h0 ++ [PyList []]) g [] [])
      as (h2 & g2 & v & Hrun & Hkeep & Hv & Hlen & Hcat).
    { apply list_at_Some. by rewrite lookup_app_r, Nat.sub_diag. }
    { constructor. }
    { constructor. }
    rewrite (run_bind _ _ _ _ _ _ Hrun). unfold ret at 1.
    assert (Hpres : preserves h0 h2).
    { intros l o Ho. apply Hkeep; [| by apply lookup_app_l_Some].
      apply lookup_lt_Some in Ho. lia. }
    destruct (IH h2 g2 (population ++ [length h0]))
      as (out & h' & g' & Hloop & Hpres' & Hout & Hnd & Hall).
    + apply Forall_app. split.
      * eapply Forall_impl; [exact Hpop |].
        intros l (w & Hw & Hwl & Hwc). exists w. split; [| done].
        by apply (individual_at_preserved h0 h2).
      * apply Forall_singleton. exists v. split; [done | split; [| done]].
        rewrite Hlen. unfold range. rewrite length_seq. cbn [length]. lia.
    + apply NoDup_app. split; [done | split; [| apply NoDup_singleton]].
      intros l Hl ->%list_elem_of_singleton.
      rewrite Forall_forall in Hpop. destruct (Hpop _ Hl) as (w & Hw & _).
      apply individual_at_Some in Hw as (items & Hitems & _).
      apply list_at_Some, lookup_lt_Some in Hitems. lia.
    + exists out, h', g'. split; [exact Hloop |].
      split; [by eapply preserves_trans |].
      split; [| by split].
      rewrite Hout, length_app. cbn [length]. lia.
Qed.

End FirstPopulationProofs.

(** X24. When [random.randint] keeps to its range, [create_population]
    returns [size] individuals (none for a negative size), all different
    objects, each a list of [len] chords of the catalog (the rest, or
    three MIDI notes), and it leaves every object that was in the store
    as it was. *)
Theorem create_population_shape (R : random_source) (size len : Z)
    (h : store) (g : rng R) :
  randint_in_range R ->
  exists population h' g',
    create_population R size len (h, g) = Return (population, (h', g')) /\
    length population = Z.to_nat size /\
    NoDup population /\
    preserves h h' /\
    Forall (fun l => exists v, individual_at h' l = Some v /\
                       length v = Z.to_nat len /\ Forall catalog_chord v) population.
Proof.
  intros Hrange. unfold create_population.
  destruct (create_population_loop R len (range (Z.to_nat size)) Hrange h g [])
    as (out & h' & g' & Hrun & Hpres & Hlen & Hnd & Hall).
  { constructor. }
  { constructor. }
  exists out, h', g'. split; [exact Hrun |].
  split; [| by split; [| split]].
  rewrite Hlen. unfold range. rewrite length_seq. cbn [length]. lia.
Qed.

Lemma create_population_shape_witness :
  exists population h' g',
    create_population counter_source 4 3 (example_store, 0%nat)
    = Return (population, (h', g')) /\
    length population = Z.to_nat 4 /\
    NoDup population /\
    preserves example_store h' /\
    Forall (fun l => exists v, individual_at h' l = Some v /\
                       length v = Z.to_nat 3 /\ Forall catalog_chord v) population.
Proof.
  apply (create_population_shape counter_source 4 3 example_store 0%nat).
  exact counter_source_randint_in_range.
Defined.

(** ** Crossover: odd populations *)

Lemma for_each_prog_ext (R : random_source) {A B : Type} (xs : list B) (acc : A)
    (body body' : A -> B -> prog R A) (s : store * rng R) :
  (forall a x s', x ∈ xs -> body a x s' = body' a x s') ->
  for_each_prog R xs acc body s = for_each_prog R xs acc body' s.
Proof.
  revert acc s. induction xs as [| x xs IH]; intros acc s Hext; [done |].
  cbn [for_each_prog]. unfold bnd. rewrite (Hext acc x s) by (by left).
  destruct (body' acc x s) as [[acc' s'] | e]; [| done].
  apply IH. intros a y s'' Hy. apply Hext. by right.
Qed.

(** X25. On a population of odd size (of individuals of one length)
    [crossover] raises [IndexError]: the last parent of the permutation has
    no partner. *)
Theorem crossover_odd_population (R : random_source) (population : list loc)
    (h : store) (g : rng R) (values : list individual) (n : nat) :
  Forall2 (fun l v => individual_at h l = Some v) population values ->
  Forall (fun v => length v = n) values ->
  Nat.Odd (length population) ->
  crossover R population (h, g) = Raise IndexError.
Proof.
  intros Hpop Hn Hodd.
  destruct (run_np_permutation R h g population values Hpop)
    as (arr & h1 & Hrun1 & Hpres1 & Harr).
  pose proof (shuffle_perm R _ arr g) as Hperm.
  unfold crossover. rewrite (run_bind R _ _ _ _ _ Hrun1). clear Hrun1.
  destruct (shuffle R arr g) as [parents g1]. cbn [fst snd] in *.
  destruct (Forall2_Permutation_l _ arr parents Hperm values Harr)
    as (bracket & Hbracket & Hparents).
  assert (Hn' : Forall (fun v => length v = n) bracket) by (by rewrite <- Hbracket).
  assert (Hodd' : Nat.Odd (length parents)).
  { rewrite <- (Permutation_length Hperm), (Forall2_length _ _ _ Harr).
    by rewrite <- (Forall2_length _ _ _ Hpop). }
  destruct (odd_list_split parents Hodd') as (front & a & -> & Heven).
  apply Forall2_app_inv_l in Hparents as (bfront & blast & Hfront & Hlast & ->).
  apply Forall_app in Hn' as [Hnfront _].
  rewrite length_app. cbn [length]. unfold range.
  rewrite Nat.add_1_r, seq_S, run_for_each_app. cbn [Nat.add]. unfold bnd at 1.
  set (body := fun (new_population : list loc) (parent : nat) => _).
  rewrite (for_each_prog_ext R (seq 0 (length front)) [] body
             (fun new_population parent =>
                if negb (parent mod 2 =? 0)%nat then ret R new_population
                else
                  p1 ← lift R (item ([] ++ front) parent);
                  let new_population := new_population ++ [p1] in
                  p2 ← lift R (item ([] ++ front) (parent + 1));
                  let new_population := new_population ++ [p2] in
                  p1 ← lift R (item ([] ++ front) parent);
                  p2 ← lift R (item ([] ++ front) (parent + 1));
                  '(new_child1, new_child2) ← new_children R p1 p2;
                  m1 ← mutation R new_child1;
                  let new_population := new_population ++ [m1] in
                  m2 ← mutation R new_child2;
                  let new_population := new_population ++ [m2] in
                  ret R new_population)).
  - destruct (crossover_loop R h1 front) with (pre := @nil nat)
        (new_population := @nil nat) (h := h1) (g := g1)
      as (out & h' & g' & Hloop & _ & _).
    { apply Forall_lookup. intros i l Hl.
      destruct (Forall2_lookup_l _ _ _ _ _ Hfront Hl) as (v & _ & Hv). by exists v. }
    { intros k l1 l2 v1 v2 Hl1 Hl2 Hv1 Hv2.
      destruct (Forall2_lookup_l _ _ _ _ _ Hfront Hl1) as (v1' & Hb1 & Hv1').
      destruct (Forall2_lookup_l _ _ _ _ _ Hfront Hl2) as (v2' & Hb2 & Hv2').
      replace v1 with v1' by congruence. replace v2 with v2' by congruence.
      by rewrite (Forall_lookup_1 _ _ _ _ Hnfront Hb1),
        (Forall_lookup_1 _ _ _ _ Hnfront Hb2). }
    { done. }
    { by exists 0%nat. }
    { apply preserves_refl. }
    change (length (@nil nat)) with 0%nat in Hloop. rewrite Hloop.
    cbn [for_each_prog app]. unfold bnd at 1. unfold body.
    destruct Heven as [k Hk].
    assert (H0 : (length front mod 2 =? 0)%nat = true).
    { rewrite Hk, Nat.mul_comm, Nat.Div0.mod_mul. done. }
    rewrite H0. cbn [negb].
    unfold mbind, prog_bind, bnd, lift.
    rewrite (item_Some (front ++ [a]) (length front) a)
      by (by rewrite list_lookup_middle).
    rewrite item_lookup, lookup_ge_None_2; [done |].
    rewrite length_app. simpl. lia.
  - intros new_population i s Hi%elem_of_seq. unfold body. cbn [app].
    destruct (i mod 2 =? 0)%nat eqn:Ei; cbn [negb]; [| done].
    apply Nat.eqb_eq in Ei.
    assert (Hi1 : (i + 1 < length front)%nat).
    { destruct Heven as [k Hk]. pose proof (Nat.div_mod_eq i 2). lia. }
    rewrite !(item_app_l front [a]) by lia. done.
Qed.

Lemma crossover_odd_population_witness :
  crossover counter_source [2%nat] (example_store, 0%nat) = Raise IndexError.
Proof.
  apply (crossover_odd_population counter_source [2%nat] example_store 0%nat
           [[(0, 4, 7); (2, 5, 9)]] 2%nat).
  - repeat constructor.
  - repeat constructor.
  - by exists 0%nat.
Defined.
